(** * The registry of [src/core/registry.ts]

    A shallow embedding of the [Registry] class (a keyed store with
    sequence numbers, cached ordered views, change notification and lazily
    created sub-registries) and the properties of its operations. *)

From Stdlib Require Import ZArith Lia Ascii String Sorted Permutation.
From stdpp Require Import base list strings.

Local Open Scope Z_scope.
Local Open Scope string_scope.

(** ** JavaScript values

    The values stored in a registry, the validation schema and the fallback
    of [get] are of type [any].  Numbers are integers here (sequence numbers
    are); objects are opaque references. *)
Module JS.

#[warnings="-register-all"] Inductive jsval : Type :=
  | VUndefined
  | VNull
  | VBool (b : bool)
  | VNum (z : Z)
  | VStr (s : string)
  | VArr (items : list jsval)
  | VObj (ref : nat).

(** ToBoolean *)
Definition truthy (v : jsval) : bool :=
  match v with
  | VUndefined | VNull => false
  | VBool b => b
  | VNum z => negb (Z.eqb z 0)
  | VStr s => match s with EmptyString => false | String _ _ => true end
  | VArr _ | VObj _ => true
  end.

(** An optional number ([number | undefined]) as a value. *)
Definition of_number (n : option Z) : jsval :=
  match n with Some z => VNum z | None => VUndefined end.

(** Truthiness of [number | undefined] and of [boolean | undefined]. *)
Definition truthy_number (n : option Z) : bool := truthy (of_number n).

Definition truthy_flag (b : option bool) : bool :=
  match b with Some true => true | _ => false end.

(** ** [Map<string, T>]: [has], [get], [set], [delete]

    A JavaScript [Map] iterates in insertion order, [set] on a key that is
    present keeps its position, so the map is an association list. *)
Section Map.
Context {T : Type}.

Fixpoint map_get (key : string) (m : list (string * T)) : option T :=
  match m with
  | [] => None
  | (k, x) :: m' => if decide (k = key) then Some x else map_get key m'
  end.

Definition map_has (key : string) (m : list (string * T)) : bool :=
  match map_get key m with Some _ => true | None => false end.

Fixpoint map_set (key : string) (x : T) (m : list (string * T))
  : list (string * T) :=
  match m with
  | [] => [(key, x)]
  | (k, y) :: m' =>
      if decide (k = key) then (key, x) :: m' else (k, y) :: map_set key x m'
  end.

Fixpoint map_delete (key : string) (m : list (string * T))
  : list (string * T) :=
  match m with
  | [] => []
  | (k, y) :: m' =>
      if decide (k = key) then map_delete key m' else (k, y) :: map_delete key m'
  end.
End Map.

(** String building for the error messages (template literals). *)
Definition quote : string := String "034"%char EmptyString.

End JS.
Export JS.

(** ** The [MainComponentsContainer] class of
    [src/core/main_components_container.ts] *)
Module MainComponentsContainer.

(** The items of [Components] are the arrays [[key, {Component, props}]]
    that [getEntries()] has returned: objects, which [indexOf] compares by
    identity.  An item is the reference of its array. *)
Abbreviation item := nat.

(** [Array.prototype.indexOf(x)]: the first index of [x], or -1. *)
Fixpoint indexOf (x : item) (l : list item) : Z :=
  match l with
  | [] => -1
  | y :: l' =>
      if decide (y = x) then 0
      else let i := indexOf x l' in if Z.ltb i 0 then -1 else i + 1
  end.

(** [Array.prototype.splice(start, deleteCount)], the array it leaves: a
    negative [start] counts from the end. *)
Definition splice (start deleteCount : Z) (l : list item) : list item :=
  let len := Z.of_nat (length l) in
  let actualStart :=
    if Z.ltb start 0 then Z.max (len + start) 0 else Z.min start len in
  let actualDeleteCount := Z.min (Z.max deleteCount 0) (len - actualStart) in
  (take (Z.to_nat actualStart) l ++
   drop (Z.to_nat (actualStart + actualDeleteCount)) l)%list.

(** The field of the component, the renderings it has asked for with
    [this.render()], and the errors that the microtasks queued with
    [Promise.resolve().then(() => { throw error; })] are going to throw. *)
Record MainComponentsContainer : Type := MkContainer {
  Components : list item;
  renders : nat;
  rethrown : list jsval
}.

(** [handleComponentError(error, C)] *)
Definition handleComponentError (error : jsval) (C : item)
    (this : MainComponentsContainer) : MainComponentsContainer :=
  {| Components := splice (indexOf C (Components this)) 1 (Components this);
     renders := S (renders this);
     rethrown := (rethrown this ++ [error])%list |}.

End MainComponentsContainer.

(** ** The [Registry] class *)
Module Registry.

(** *** Errors *)
Inductive error : Type :=
  | KeyNotFoundError (message : string)
  | DuplicatedKeyError (message : string)
  | Error (message : string).

(** The result of a method that may throw. *)
Inductive outcome (A : Type) : Type :=
  | Ok (result : A)
  | Throw (e : error).
Arguments Ok {A} result.
Arguments Throw {A} e.

(** *** Events

    [trigger("UPDATE", {operation, key, value})] of the [EventBus] base
    class dispatches synchronously to the listeners of the event, in the
    order of their registration. *)
Record payload : Type := Payload {
  ev_operation : string;
  ev_key : string;
  ev_value : jsval
}.

Definition event : Type := (string * payload)%type.

(** A listener of "UPDATE" is either the one the constructor installs, or a
    subscriber.  A subscriber is a script over the ordered views, as the one
    of [MainComponentsContainer.setup] is (it calls [getEntries]); it
    keeps what it has read.  A subscriber that itself adds to or removes from
    the registry is not modelled. *)
Inductive query : Type := QGetAll | QGetEntries.

Inductive listener : Type :=
  | LInvalidate
  | LSubscriber (script : list query).

Inductive observation : Type :=
  | SawAll (values : list jsval)
  | SawEntries (pairs : list (string * jsval)).

(** *** State *)

(** [content] maps a key to the array [[sequence, value]]. *)
Definition entry : Type := (option Z * jsval)%type.

Abbreviation addr := nat.

(** The fields of the class, the listeners of its [EventTarget], and two
    traces: the events dispatched so far and what the subscribers have
    read. *)
Record Registry : Type := MkRegistry {
  content : list (string * entry);
  subRegistries : list (string * addr);
  elements : option (list jsval);
  entries : option (list (string * jsval));
  name : string;
  validationSchema : jsval;
  listeners : list listener;
  emitted : list event;
  observed : list observation
}.

Definition set_content (c : list (string * entry)) (r : Registry) : Registry :=
  MkRegistry c (subRegistries r) (elements r) (entries r) (name r)
    (validationSchema r) (listeners r) (emitted r) (observed r).

Definition set_subRegistries (m : list (string * addr)) (r : Registry) : Registry :=
  MkRegistry (content r) m (elements r) (entries r) (name r)
    (validationSchema r) (listeners r) (emitted r) (observed r).

Definition set_elements (e : option (list jsval)) (r : Registry) : Registry :=
  MkRegistry (content r) (subRegistries r) e (entries r) (name r)
    (validationSchema r) (listeners r) (emitted r) (observed r).

Definition set_entries (e : option (list (string * jsval))) (r : Registry) : Registry :=
  MkRegistry (content r) (subRegistries r) (elements r) e (name r)
    (validationSchema r) (listeners r) (emitted r) (observed r).

Definition set_validationSchema (s : jsval) (r : Registry) : Registry :=
  MkRegistry (content r) (subRegistries r) (elements r) (entries r) (name r)
    s (listeners r) (emitted r) (observed r).

Definition set_listeners (l : list listener) (r : Registry) : Registry :=
  MkRegistry (content r) (subRegistries r) (elements r) (entries r) (name r)
    (validationSchema r) l (emitted r) (observed r).

Definition emit (ev : event) (r : Registry) : Registry :=
  MkRegistry (content r) (subRegistries r) (elements r) (entries r) (name r)
    (validationSchema r) (listeners r) (emitted r ++ [ev]) (observed r).

Definition observe (o : observation) (r : Registry) : Registry :=
  MkRegistry (content r) (subRegistries r) (elements r) (entries r) (name r)
    (validationSchema r) (listeners r) (emitted r) (observed r ++ [o]).

(** Registries are objects: [category] hands out a reference.  The heap
    holds the objects, a reference is an index in it. *)
Abbreviation heap := (list Registry).

(** [constructor(name = "root")] *)
Definition constructor (name : option string) : Registry :=
  {| content := [];
     subRegistries := [];
     elements := None;
     entries := None;
     name := match name with Some n => n | None => "root" end;
     validationSchema := VNull;
     listeners := [LInvalidate];
     emitted := [];
     observed := [] |}.

(** *** The ordered views *)

(** [el[1][0]], [el[1][1]] and [[str, elem[1]]] of an item [[str, elem]] of
    [[...this.content]]. *)
Definition sequence_of (el : string * entry) : option Z := fst (snd el).
Definition value_of (el : string * entry) : jsval := snd (snd el).
Definition pair_of (el : string * entry) : string * jsval := (fst el, snd (snd el)).

(** The comparator [(el1, el2) => el1[1][0] - el2[1][0]]; [None] is NaN,
    the difference when a sequence is [undefined]. *)
Definition compare (el1 el2 : string * entry) : option Z :=
  match sequence_of el1, sequence_of el2 with
  | Some a, Some b => Some (a - b)
  | _, _ => None
  end.

(** [el1] has to come before [el2]: the comparator is negative. *)
Definition before (el1 el2 : string * entry) : bool :=
  match compare el1 el2 with
  | Some d => Z.ltb d 0
  | None => false
  end.

(** [Array.prototype.sort] is stable.  For a consistent comparator the
    array that [sort] returns is the one of every stable sort, here the
    insertion sort that takes the items from the last to the first and moves
    each behind the items of the sorted rest that have to come before it. *)
Fixpoint insert (el : string * entry) (sorted : list (string * entry))
  : list (string * entry) :=
  match sorted with
  | [] => [el]
  | el' :: rest =>
      if before el' el then el' :: insert el rest else el :: el' :: rest
  end.

Definition stable_sort (items : list (string * entry)) : list (string * entry) :=
  foldr insert [] items.

(** All the sequences are numbers: no difference is NaN. *)
Definition all_numbers (items : list (string * entry)) : bool :=
  forallb (fun el => match sequence_of el with Some _ => true | None => false end)
    items.

(** No item has to come before another. *)
Definition all_equal (items : list (string * entry)) : bool :=
  forallb (fun el1 => forallb (fun el2 => negb (before el1 el2)) items) items.

(** [sort] takes a NaN of the comparator for 0.  The comparator then is
    consistent on the items when all the sequences are numbers, and when no
    item has to come before another; it is not when a sequence is
    [undefined] among numbers that differ. *)
Definition consistent (items : list (string * entry)) : bool :=
  all_numbers items || all_equal items.

Section Engine.

(** For a comparator that is not consistent the language leaves the order
    of the result to the implementation: [engine_sort] is what the engine
    that runs the code returns then, the same items in an order of its
    own. *)
Variable engine_sort : list (string * entry) -> list (string * entry).
Hypothesis engine_sort_Permutation : forall l, Permutation (engine_sort l) l.

(** [[...this.content].sort((el1, el2) => el1[1][0] - el2[1][0])] *)
Definition sort (items : list (string * entry)) : list (string * entry) :=
  if consistent items then stable_sort items else engine_sort items.

(** [getAll()]; the copy of [slice()] is the list itself. *)
Definition getAll (r : Registry) : list jsval * Registry :=
  match elements r with
  | Some l => (l, r)
  | None =>
      let l := map value_of (sort (content r)) in
      (l, set_elements (Some l) r)
  end.

(** [getEntries()] *)
Definition getEntries (r : Registry) : list (string * jsval) * Registry :=
  match entries r with
  | Some l => (l, r)
  | None =>
      let l := map pair_of (sort (content r)) in
      (l, set_entries (Some l) r)
  end.

(** *** Dispatch *)

(** The listener that the constructor installs:
    [this.elements = null; this.entries = null]. *)
Definition invalidate (r : Registry) : Registry :=
  set_entries None (set_elements None r).

Definition run_query (r : Registry) (q : query) : Registry :=
  match q with
  | QGetAll => let '(l, r') := getAll r in observe (SawAll l) r'
  | QGetEntries => let '(l, r') := getEntries r in observe (SawEntries l) r'
  end.

Definition run_listener (r : Registry) (l : listener) : Registry :=
  match l with
  | LInvalidate => invalidate r
  | LSubscriber script => foldl run_query r script
  end.

Definition trigger (type : string) (detail : payload) (r : Registry) : Registry :=
  foldl run_listener (emit (type, detail) r) (listeners r).

(** [addEventListener("UPDATE", subscriber)] of the base class. *)
Definition addEventListener (script : list query) (r : Registry) : Registry :=
  set_listeners (listeners r ++ [LSubscriber script]) r.

(** *** The methods *)

(** The [options] argument of [add]: [{force?: boolean, sequence?: number}];
    a field that is left out is [undefined]. *)
Record options : Type := Options {
  force : option bool;
  sequence : option Z
}.

(** [add(key, value, {force, sequence} = {force: false, sequence: 50})].
    The method returns [this]. *)
Definition add (key : string) (value : jsval) (opts : option options)
    (r : Registry) : outcome unit * Registry :=
  let '(force, sequence) :=
    match opts with
    | Some o => (force o, sequence o)
    | None => (Some false, Some 50)
    end in
  if negb (truthy_flag force) && map_has key (content r) then
    (Throw (DuplicatedKeyError
       ("Cannot add '" +:+ key +:+ "' in this registry: it already exists")), r)
  else
    let previousSequence :=
      if truthy_flag force then
        match map_get key (content r) with
        | Some elem => fst elem
        | None => None
        end
      else None in
    let sequence :=
      if truthy_number sequence then
        (if truthy_number previousSequence then previousSequence else Some 50)
      else sequence in
    let r := set_content (map_set key (sequence, value) (content r)) r in
    (Ok tt, trigger "UPDATE" (Payload "add" key value) r).

(** [get(key, defaultValue = undefined)] *)
Definition get (key : string) (defaultValue : jsval) (r : Registry)
  : outcome jsval :=
  if match defaultValue with VUndefined => true | _ => false end
     && negb (map_has key (content r)) then
    Throw (KeyNotFoundError ("Cannot find " +:+ key +:+ " in this registry!"))
  else
    match map_get key (content r) with
    | Some info => Ok (snd info)
    | None => Ok defaultValue
    end.

(** [contains(key)] *)
Definition contains (key : string) (r : Registry) : bool :=
  map_has key (content r).

(** [remove(key)]; [value] is what [content.get(key)] gives, the array
    [[sequence, value]] or [undefined]. *)
Definition remove (key : string) (r : Registry) : Registry :=
  let value :=
    match map_get key (content r) with
    | Some elem => VArr [of_number (fst elem); snd elem]
    | None => VUndefined
    end in
  let r := set_content (map_delete key (content r)) r in
  trigger "UPDATE" (Payload "delete" key value) r.

(** *** Validation *)

(** [new Error("Validation schema already set on this registry")] *)
Definition already_set : error :=
  Error "Validation schema already set on this registry".

Section Validation.

(** [validate(value, schema)] of the owl library: [Some e] when it throws,
    [e] being the thrown error as a string. *)
Variable validate : jsval -> jsval -> option string.

Definition validation_message (name key e : string) : string :=
  "Validation error for key " +:+ quote +:+ key +:+ quote +:+
  " in registry " +:+ quote +:+ name +:+ quote +:+ ": " +:+ e.

Definition validateSchema (name key : string) (value schema : jsval)
  : option error :=
  match validate value schema with
  | Some e => Some (Error (validation_message name key e))
  | None => None
  end.

(** The loop of [addValidation]: it stops at the first entry that throws. *)
Fixpoint validate_entries (name : string) (schema : jsval)
    (es : list (string * jsval)) : option error :=
  match es with
  | [] => None
  | (key, value) :: es' =>
      match validateSchema name key value schema with
      | Some e => Some e
      | None => validate_entries name schema es'
      end
  end.

(** [addValidation(schema)] *)
Definition addValidation (schema : jsval) (r : Registry)
  : outcome unit * Registry :=
  if truthy (validationSchema r) then
    (Throw already_set, r)
  else
    let r := set_validationSchema schema r in
    let '(es, r) := getEntries r in
    match validate_entries (name r) schema es with
    | Some e => (Throw e, r)
    | None => (Ok tt, r)
    end.

End Validation.

(** *** Sub-registries *)

(** [category(subcategory)] called on the object at [this]. *)
Definition category (subcategory : string) (this : addr) (h : heap)
  : option (addr * heap) :=
  match h !! this with
  | None => None
  | Some r =>
      match map_get subcategory (subRegistries r) with
      | Some c => Some (c, h)
      | None =>
          let c := length h in
          let h := (h ++ [constructor None])%list in
          Some (c, <[this := set_subRegistries
                               (map_set subcategory c (subRegistries r)) r]> h)
      end
  end.

(** A method called on the object at [this]. *)
Definition call {A : Type} (method : Registry -> A * Registry)
    (this : addr) (h : heap) : option (A * heap) :=
  match h !! this with
  | None => None
  | Some r => let '(a, r') := method r in Some (a, <[this := r']> h)
  end.

(** [registry = new Registry()], the root exported by the module. *)
Definition registry : Registry := constructor None.

(** *** Programs over the public interface *)
Inductive op : Type :=
  | OpAdd (key : string) (value : jsval) (opts : option options)
  | OpGet (key : string) (defaultValue : jsval)
  | OpContains (key : string)
  | OpRemove (key : string)
  | OpGetAll
  | OpGetEntries
  | OpCategory (subcategory : string)
  | OpAddValidation (schema : jsval)
  | OpAddEventListener (script : list query).

Inductive result : Type :=
  | RUndefined
  | RThis
  | RValue (v : jsval)
  | RBool (b : bool)
  | RValues (l : list jsval)
  | REntries (l : list (string * jsval))
  | RRegistry (c : addr)
  | RThrow (e : error).

Definition result_of {A : Type} (f : A -> result) (o : outcome A) : result :=
  match o with
  | Ok a => f a
  | Throw e => RThrow e
  end.

Section Programs.
Variable validate : jsval -> jsval -> option string.

(** One method call on the object at [this]. *)
Definition step (o : op) (this : addr) (h : heap) : option (result * heap) :=
  match o with
  | OpAdd key value opts =>
      call (fun r => let '(x, r') := add key value opts r in
                     (result_of (fun _ => RThis) x, r')) this h
  | OpGet key defaultValue =>
      call (fun r => (result_of RValue (get key defaultValue r), r)) this h
  | OpContains key =>
      call (fun r => (RBool (contains key r), r)) this h
  | OpRemove key =>
      call (fun r => (RUndefined, remove key r)) this h
  | OpGetAll =>
      call (fun r => let '(l, r') := getAll r in (RValues l, r')) this h
  | OpGetEntries =>
      call (fun r => let '(l, r') := getEntries r in (REntries l, r')) this h
  | OpCategory subcategory =>
      match category subcategory this h with
      | Some (c, h') => Some (RRegistry c, h')
      | None => None
      end
  | OpAddValidation schema =>
      call (fun r => let '(x, r') := addValidation validate schema r in
                     (result_of (fun _ => RUndefined) x, r')) this h
  | OpAddEventListener script =>
      call (fun r => (RUndefined, addEventListener script r)) this h
  end.

(** A sequence of calls, each on the object it names. *)
Fixpoint run (calls : list (addr * op)) (h : heap) : option heap :=
  match calls with
  | [] => Some h
  | (this, o) :: calls' =>
      match step o this h with
      | Some (_, h') => run calls' h'
      | None => None
      end
  end.
End Programs.

(** Chained [add] calls on one registry, up to the first that throws. *)
Record add_call : Type := AddCall {
  call_key : string;
  call_value : jsval;
  call_options : option options
}.

Fixpoint add_all (calls : list add_call) (r : Registry) : outcome unit * Registry :=
  match calls with
  | [] => (Ok tt, r)
  | c :: calls' =>
      match add (call_key c) (call_value c) (call_options c) r with
      | (Ok _, r') => add_all calls' r'
      | (Throw e, r') => (Throw e, r')
      end
  end.

(** The [force] that [add] sees. *)
Definition force_of (opts : option options) : option bool :=
  match opts with
  | Some o => force o
  | None => Some false
  end.

(** *** Invariants *)

(** A cache that is present is the ordered projection of [content]. *)
Definition cache_ok (r : Registry) : Prop :=
  (forall l, elements r = Some l -> l = map value_of (sort (content r))) /\
  (forall l, entries r = Some l -> l = map pair_of (sort (content r))).

(** The listener of the constructor is the first one. *)
Definition invalidates_first (r : Registry) : Prop :=
  exists subscribers, listeners r = LInvalidate :: subscribers.

Definition registry_ok (r : Registry) : Prop :=
  cache_ok r /\ invalidates_first r.

(** Ascending sequence numbers; an [undefined] one is not compared. *)
Definition ascending (el1 el2 : string * entry) : Prop :=
  match sequence_of el1, sequence_of el2 with
  | Some a, Some b => a <= b
  | _, _ => True
  end.

Definition numbered (items : list (string * entry)) : Prop :=
  Forall (fun el => exists n, sequence_of el = Some n) items.

(** What a subscriber may read of a registry with the given content. *)
Definition fresh_view (c : list (string * entry)) (o : observation) : Prop :=
  match o with
  | SawAll l => l = map value_of (sort c)
  | SawEntries l => l = map pair_of (sort c)
  end.

(** Everything but the caches and what the subscribers have read. *)
Definition same_store (r r' : Registry) : Prop :=
  content r' = content r /\ subRegistries r' = subRegistries r /\
  name r' = name r /\ validationSchema r' = validationSchema r /\
  listeners r' = listeners r /\ emitted r' = emitted r.

(** The subscribers have read [obs] on the way from [r] to [r'], each time
    the up-to-date view of [c]. *)
Definition reads_fresh (c : list (string * entry)) (r r' : Registry) : Prop :=
  exists obs, observed r' = (observed r ++ obs)%list /\ Forall (fresh_view c) obs.

(** What a registry keeps for ever: its name and the sub-registries it has
    handed out. *)
Definition keeps_identity (r r' : Registry) : Prop :=
  name r' = name r /\
  forall subcategory c,
    map_get subcategory (subRegistries r) = Some c ->
    map_get subcategory (subRegistries r') = Some c.

Definition heap_extends (h h' : heap) : Prop :=
  forall a r, h !! a = Some r -> exists r', h' !! a = Some r' /\ keeps_identity r r'.

Definition heap_ok (h : heap) : Prop := Forall registry_ok h.

(** The keys of a [Map] are distinct. *)
Definition keys_unique (r : Registry) : Prop := NoDup (map fst (content r)).

(** The methods other than [add] and [remove]. *)
Definition reads_only (o : op) : bool :=
  match o with
  | OpAdd _ _ _ | OpRemove _ => false
  | _ => true
  end.

(** Sub-registries are created after the registry that holds them, and an
    object is held by one registry under one name. *)
Definition tree_ok (h : heap) : Prop :=
  (forall a r s c,
     h !! a = Some r -> map_get s (subRegistries r) = Some c ->
     (a < c < length h)%nat) /\
  (forall a1 r1 s1 a2 r2 s2 c,
     h !! a1 = Some r1 -> map_get s1 (subRegistries r1) = Some c ->
     h !! a2 = Some r2 -> map_get s2 (subRegistries r2) = Some c ->
     a1 = a2 /\ s1 = s2).

(** ** Properties *)

(** *** The map *)
Section MapFacts.
Context {T : Type}.
Implicit Types (m : list (string * T)) (key : string).

Lemma map_has_get key m :
  map_has key m = true <-> exists x, map_get key m = Some x.
Proof.
  unfold map_has. destruct (map_get key m); split; eauto; try discriminate.
  intros [x Hx]. discriminate.
Qed.

Lemma map_has_false key m : map_has key m = false <-> map_get key m = None.
Proof. unfold map_has. destruct (map_get key m); split; congruence. Qed.

Lemma map_get_set_eq key x m : map_get key (map_set key x m) = Some x.
Proof.
  induction m as [|[k y] m IH]; simpl.
  - rewrite decide_True; auto.
  - destruct (decide (k = key)); simpl.
    + rewrite decide_True; auto.
    + rewrite decide_False; auto.
Qed.

Lemma map_get_set_ne key key' x m :
  key <> key' -> map_get key' (map_set key x m) = map_get key' m.
Proof.
  intros Hne. induction m as [|[k y] m IH]; simpl.
  - rewrite decide_False; auto.
  - destruct (decide (k = key)) as [->|Hk]; simpl.
    + rewrite !decide_False; auto.
    + destruct (decide (k = key')); auto.
Qed.

Lemma map_get_delete_eq key m : map_get key (map_delete key m) = None.
Proof.
  induction m as [|[k y] m IH]; simpl; auto.
  destruct (decide (k = key)); simpl; auto.
  rewrite decide_False; auto.
Qed.

Lemma map_get_delete_ne key key' m :
  key <> key' -> map_get key' (map_delete key m) = map_get key' m.
Proof.
  intros Hne. induction m as [|[k y] m IH]; simpl; auto.
  destruct (decide (k = key)) as [->|Hk]; simpl.
  - rewrite decide_False; auto.
  - destruct (decide (k = key')); auto.
Qed.

Lemma map_delete_absent key m : map_get key m = None -> map_delete key m = m.
Proof.
  induction m as [|[k y] m IH]; simpl; auto.
  destruct (decide (k = key)); [discriminate|].
  intros H. rewrite IH; auto.
Qed.

Lemma map_has_set_ne key key' x m :
  key <> key' -> map_has key' (map_set key x m) = map_has key' m.
Proof. intros H. unfold map_has. rewrite map_get_set_ne; auto. Qed.
End MapFacts.

(** *** The sort *)
Lemma insert_Permutation el l : Permutation (insert el l) (el :: l).
Proof.
  induction l as [|el' l IH]; simpl; auto.
  destruct (before el' el); auto.
  rewrite IH. apply perm_swap.
Qed.

Lemma stable_sort_Permutation l : Permutation (stable_sort l) l.
Proof.
  induction l as [|el l IH]; simpl; auto.
  rewrite insert_Permutation. auto.
Qed.

Lemma before_ascending el1 el2 : before el1 el2 = true -> ascending el1 el2.
Proof.
  unfold before, ascending, compare.
  destruct (sequence_of el1), (sequence_of el2); auto.
  intros H. apply Z.ltb_lt in H. lia.
Qed.

Lemma not_before_ascending el1 el2 : before el1 el2 = false -> ascending el2 el1.
Proof.
  unfold before, ascending, compare.
  destruct (sequence_of el1), (sequence_of el2); auto.
  intros H. apply Z.ltb_ge in H. lia.
Qed.

(** Items of equal sequence number keep the order of [content]. *)
Lemma insert_stable n el l :
  filter (fun x => sequence_of x = Some n) (insert el l) =
  filter (fun x => sequence_of x = Some n) (el :: l).
Proof.
  induction l as [|el' l IH]; simpl; [reflexivity|].
  destruct (before el' el) eqn:Hb; [|reflexivity].
  rewrite (filter_cons _ el'), IH, !filter_cons.
  destruct (decide (sequence_of el' = Some n)) as [H'|H'];
    destruct (decide (sequence_of el = Some n)) as [H|H]; try reflexivity.
  unfold before, compare in Hb. rewrite H, H' in Hb.
  apply Z.ltb_lt in Hb. lia.
Qed.

Lemma stable_sort_stable n l :
  filter (fun x => sequence_of x = Some n) (stable_sort l) =
  filter (fun x => sequence_of x = Some n) l.
Proof.
  induction l as [|el l IH]; simpl; [reflexivity|].
  rewrite insert_stable, !filter_cons, IH. reflexivity.
Qed.

Lemma ascending_trans el1 el2 el3 :
  (exists n, sequence_of el2 = Some n) ->
  ascending el1 el2 -> ascending el2 el3 -> ascending el1 el3.
Proof.
  unfold ascending. intros [n ->].
  destruct (sequence_of el1), (sequence_of el3); auto. lia.
Qed.

Lemma insert_StronglySorted el l :
  numbered (el :: l) ->
  StronglySorted ascending l -> StronglySorted ascending (insert el l).
Proof.
  induction l as [|el' l IH]; simpl; intros Hn Hs.
  - repeat constructor.
  - inversion Hs as [|? ? Hl Hall]; subst.
    inversion Hn as [|? ? Hel Hn']; subst.
    inversion Hn' as [|? ? Hel' Hn'']; subst.
    destruct (before el' el) eqn:Hb.
    + constructor.
      * apply IH; auto. constructor; auto.
      * rewrite insert_Permutation.
        constructor; auto using before_ascending.
    + constructor; auto. constructor.
      * auto using not_before_ascending.
      * eapply Forall_impl; [exact Hall|]. simpl.
        intros el3 H3. eapply ascending_trans; eauto using not_before_ascending.
Qed.

Lemma stable_sort_StronglySorted l :
  numbered l -> StronglySorted ascending (stable_sort l).
Proof.
  induction l as [|el l IH]; simpl; intros Hn.
  - constructor.
  - inversion Hn; subst. apply insert_StronglySorted; auto.
    constructor; auto.
    unfold numbered. rewrite stable_sort_Permutation. auto.
Qed.

Lemma all_numbers_numbered l : all_numbers l = true <-> numbered l.
Proof.
  unfold all_numbers, numbered. induction l as [|el l IH]; simpl.
  - split; auto.
  - rewrite andb_true_iff, Forall_cons, IH.
    destruct (sequence_of el) as [n|]; split; intros [H1 H2]; split; eauto.
    + discriminate.
    + destruct H1 as [n Hn]. discriminate.
Qed.

(** With numbers for all the sequences the engine has no say. *)
Lemma sort_numbered l : numbered l -> sort l = stable_sort l.
Proof.
  intros H. apply all_numbers_numbered in H.
  unfold sort, consistent. rewrite H. reflexivity.
Qed.

(** Nor has it where no item has to come before another: the order is the
    one of the content. *)
Lemma sort_all_equal l : all_equal l = true -> sort l = l.
Proof.
  intros H. unfold sort, consistent. rewrite H, orb_true_r.
  unfold all_equal in H. rewrite forallb_forall in H.
  assert (Hb : forall x y, In x l -> In y l -> before x y = false).
  { intros x y Hx Hy. specialize (H x Hx). rewrite forallb_forall in H.
    apply negb_true_iff, H, Hy. }
  clear H. induction l as [|el l IH]; simpl; [reflexivity|].
  rewrite IH by (intros x y Hx Hy; apply Hb; right; assumption).
  destruct l as [|el' l]; simpl; [reflexivity|].
  rewrite (Hb el' el); [reflexivity | right; left; reflexivity | left; reflexivity].
Qed.

Lemma sort_Permutation l : Permutation (sort l) l.
Proof.
  unfold sort. destruct (consistent l);
    [apply stable_sort_Permutation | apply engine_sort_Permutation].
Qed.

Lemma sort_StronglySorted l : numbered l -> StronglySorted ascending (sort l).
Proof.
  intros H. rewrite (sort_numbered l H). apply stable_sort_StronglySorted, H.
Qed.

Lemma sort_stable n l :
  numbered l ->
  filter (fun x => sequence_of x = Some n) (sort l) =
  filter (fun x => sequence_of x = Some n) l.
Proof. intros H. rewrite (sort_numbered l H). apply stable_sort_stable. Qed.

(** *** Dispatch *)
Lemma same_store_refl r : same_store r r.
Proof. unfold same_store; auto 10. Qed.

Lemma same_store_trans r1 r2 r3 :
  same_store r1 r2 -> same_store r2 r3 -> same_store r1 r3.
Proof. unfold same_store. intuition congruence. Qed.

Lemma reads_fresh_refl c r : reads_fresh c r r.
Proof. exists []. rewrite app_nil_r. auto. Qed.

Lemma reads_fresh_trans c r1 r2 r3 :
  reads_fresh c r1 r2 -> reads_fresh c r2 r3 -> reads_fresh c r1 r3.
Proof.
  intros [o1 [H1 F1]] [o2 [H2 F2]]. exists (o1 ++ o2)%list. split.
  - rewrite H2, H1, app_assoc. reflexivity.
  - apply Forall_app; auto.
Qed.

Lemma cache_ok_invalidate r : cache_ok (invalidate r).
Proof. split; simpl; discriminate. Qed.

Ltac frame := unfold same_store; simpl; auto 10.

Lemma run_query_spec r q :
  cache_ok r ->
  same_store r (run_query r q) /\ cache_ok (run_query r q) /\
  reads_fresh (content r) r (run_query r q).
Proof.
  intros [Hel Hen]. destruct q; simpl.
  - unfold getAll. destruct (elements r) as [l|] eqn:E; simpl.
    + split; [frame|]. split.
      * split; simpl; auto. rewrite E. auto.
      * exists [SawAll l]. split; auto. repeat constructor. simpl. auto.
    + split; [frame|]. split.
      * split; simpl; auto. intros l [= <-]. reflexivity.
      * eexists [_]. split; [reflexivity|]. repeat constructor.
  - unfold getEntries. destruct (entries r) as [l|] eqn:E; simpl.
    + split; [frame|]. split.
      * split; simpl; auto. rewrite E. auto.
      * exists [SawEntries l]. split; auto. repeat constructor. simpl. auto.
    + split; [frame|]. split.
      * split; simpl; auto. intros l [= <-]. reflexivity.
      * eexists [_]. split; [reflexivity|]. repeat constructor.
Qed.

Lemma run_script_spec script : forall r,
  cache_ok r ->
  same_store r (foldl run_query r script) /\
  cache_ok (foldl run_query r script) /\
  reads_fresh (content r) r (foldl run_query r script).
Proof.
  induction script as [|q script IH]; simpl; intros r Hr.
  - auto using same_store_refl, reads_fresh_refl.
  - destruct (run_query_spec r q Hr) as (S1 & C1 & F1).
    destruct (IH _ C1) as (S2 & C2 & F2).
    assert (Hc : content (run_query r q) = content r) by apply S1.
    rewrite Hc in F2.
    eauto using same_store_trans, reads_fresh_trans.
Qed.

Lemma run_listener_spec r l :
  cache_ok r ->
  same_store r (run_listener r l) /\ cache_ok (run_listener r l) /\
  reads_fresh (content r) r (run_listener r l).
Proof.
  intros Hr. destruct l as [|script]; simpl.
  - split; [frame|]. split.
    + apply (cache_ok_invalidate r).
    + exists []. simpl. rewrite app_nil_r. auto.
  - apply run_script_spec; auto.
Qed.

Lemma run_listeners_spec ls : forall r,
  cache_ok r ->
  same_store r (foldl run_listener r ls) /\
  cache_ok (foldl run_listener r ls) /\
  reads_fresh (content r) r (foldl run_listener r ls).
Proof.
  induction ls as [|l ls IH]; simpl; intros r Hr.
  - auto using same_store_refl, reads_fresh_refl.
  - destruct (run_listener_spec r l Hr) as (S1 & C1 & F1).
    destruct (IH _ C1) as (S2 & C2 & F2).
    assert (Hc : content (run_listener r l) = content r) by apply S1.
    rewrite Hc in F2.
    eauto using same_store_trans, reads_fresh_trans.
Qed.

(** The listener of the constructor runs before the subscribers. *)
Lemma trigger_invalidates_first type detail r subscribers :
  listeners r = LInvalidate :: subscribers ->
  trigger type detail r =
  foldl run_listener (invalidate (emit (type, detail) r)) subscribers.
Proof. intros H. unfold trigger. rewrite H. reflexivity. Qed.

Lemma trigger_spec type detail r :
  invalidates_first r ->
  let r' := trigger type detail r in
  content r' = content r /\ subRegistries r' = subRegistries r /\
  name r' = name r /\ validationSchema r' = validationSchema r /\
  listeners r' = listeners r /\
  emitted r' = (emitted r ++ [(type, detail)])%list /\
  cache_ok r' /\ reads_fresh (content r) r r'.
Proof.
  intros [subs Hs]. simpl.
  rewrite (trigger_invalidates_first _ _ _ _ Hs).
  destruct (run_listeners_spec subs (invalidate (emit (type, detail) r))
              (cache_ok_invalidate _)) as ((A & B & C & D & E & F) & G & H).
  simpl in *. destruct H as [obs [H1 H2]].
  do 6 (split; [assumption|]). split; [exact G|].
  exists obs. auto.
Qed.

(** Without the assumption, the store and the event still are as stated. *)
Lemma run_query_frame r q : same_store r (run_query r q).
Proof.
  destruct q; simpl.
  - unfold getAll. destruct (elements r); frame.
  - unfold getEntries. destruct (entries r); frame.
Qed.

Lemma run_listeners_frame ls : forall r, same_store r (foldl run_listener r ls).
Proof.
  induction ls as [|l ls IH]; simpl; intros r.
  - apply same_store_refl.
  - eapply same_store_trans; [|apply IH].
    destruct l as [|script]; simpl; [frame|].
    clear. revert r. induction script as [|q script IHs]; simpl; intros r.
    + apply same_store_refl.
    + eapply same_store_trans; [apply run_query_frame|apply IHs].
Qed.

Lemma trigger_frame type detail r :
  let r' := trigger type detail r in
  content r' = content r /\ subRegistries r' = subRegistries r /\
  name r' = name r /\ validationSchema r' = validationSchema r /\
  listeners r' = listeners r /\
  emitted r' = (emitted r ++ [(type, detail)])%list.
Proof.
  simpl. unfold trigger.
  destruct (run_listeners_frame (listeners r) (emit (type, detail) r))
    as (A & B & C & D & E & F).
  simpl in *. auto 10.
Qed.

(** *** [add] *)

(** The sequence number that [add] stores. *)
Lemma add_ok key value opts r :
  truthy_flag (force_of opts) = true \/ map_has key (content r) = false ->
  exists s r',
    add key value opts r = (Ok tt, r') /\
    r' = trigger "UPDATE" (Payload "add" key value)
           (set_content (map_set key (s, value) (content r)) r).
Proof.
  intros H. unfold add.
  destruct opts as [[f s]|]; simpl in *.
  - destruct (negb (truthy_flag f) && map_has key (content r)) eqn:E.
    + apply andb_true_iff in E as [E1 E2]. apply negb_true_iff in E1.
      destruct H; congruence.
    + eauto.
  - destruct H as [H|H]; [discriminate|]. rewrite H. simpl. eauto.
Qed.

Lemma add_throws key value opts r :
  truthy_flag (force_of opts) = false ->
  map_has key (content r) = true ->
  add key value opts r =
  (Throw (DuplicatedKeyError
     ("Cannot add '" +:+ key +:+ "' in this registry: it already exists")), r).
Proof.
  intros Hf Hk. unfold add.
  destruct opts as [[f s]|]; simpl in *; rewrite ?Hf, Hk; reflexivity.
Qed.

Lemma add_get key value opts r r' :
  add key value opts r = (Ok tt, r') ->
  (exists s, map_get key (content r') = Some (s, value)) /\
  (forall key', key <> key' -> map_get key' (content r') = map_get key' (content r)).
Proof.
  intros H.
  assert (Hpre : truthy_flag (force_of opts) = true \/ map_has key (content r) = false).
  { destruct (truthy_flag (force_of opts)) eqn:Hf; auto.
    destruct (map_has key (content r)) eqn:Hk; auto.
    rewrite (add_throws key value opts r Hf Hk) in H. discriminate. }
  destruct (add_ok key value opts r Hpre) as (s & r1 & H1 & ->).
  rewrite H1 in H. injection H as <-.
  destruct (trigger_frame "UPDATE" (Payload "add" key value)
              (set_content (map_set key (s, value) (content r)) r)) as [Hc _].
  rewrite Hc. simpl. split.
  - exists s. apply map_get_set_eq.
  - intros key' Hne. apply map_get_set_ne; auto.
Qed.

(** C1 (what the code does where the claim fails).  On an empty registry,
    [add("a", v1, {sequence: 10})] followed by [add("b", v2, {sequence: 5})]
    stores both entries under 50, not under 10 and 5, and [getAll()] returns
    [[v1, v2]], the order of insertion. *)
Theorem add_explicit_sequence_replaced (v1 v2 : jsval) :
  exists r1 r2,
    add "a" v1 (Some (Options None (Some 10))) registry = (Ok tt, r1) /\
    add "b" v2 (Some (Options None (Some 5))) r1 = (Ok tt, r2) /\
    content r2 = [("a", (Some 50, v1)); ("b", (Some 50, v2))] /\
    fst (getAll r2) = [v1; v2].
Proof. do 2 eexists. repeat split. Qed.

(** The same on every registry: a fresh key added with a sequence other
    than 0 is stored under 50. *)
Lemma add_fresh_sequence key value f n r :
  map_has key (content r) = false -> n <> 0 ->
  exists r',
    add key value (Some (Options f (Some n))) r = (Ok tt, r') /\
    map_get key (content r') = Some (Some 50, value).
Proof.
  intros Hk Hn. unfold add. simpl. rewrite Hk, andb_false_r.
  assert (Ht : truthy_number (Some n) = true).
  { unfold truthy_number. simpl. apply negb_true_iff, Z.eqb_neq. exact Hn. }
  rewrite Ht.
  assert (Hp : (if truthy_flag f
                then match map_get key (content r) with
                     | Some elem => fst elem
                     | None => None
                     end
                else None) = None).
  { apply map_has_false in Hk. rewrite Hk. destruct (truthy_flag f); reflexivity. }
  rewrite Hp. simpl. eexists. split; [reflexivity|].
  destruct (trigger_frame "UPDATE" (Payload "add" key value)
              (set_content (map_set key (Some 50, value) (content r)) r)) as [Hc _].
  simpl in Hc. rewrite Hc. apply map_get_set_eq.
Qed.

(** C2 (what the code does where the claim fails).  [add(key, value,
    {force: true})] succeeds on every registry and stores the value under the
    sequence [undefined], whatever the sequence of the entry it replaces:
    after [add("a", v1)], which stores 50, [add("a", v2, {force: true})]
    leaves [["a", [undefined, v2]]]. *)
Theorem add_force_drops_sequence (r : Registry) (key : string) (value : jsval) :
  (exists r',
     add key value (Some (Options (Some true) None)) r = (Ok tt, r') /\
     map_get key (content r') = Some (None, value)) /\
  (forall v1 v2,
     exists r1 r2,
       add "a" v1 None registry = (Ok tt, r1) /\
       content r1 = [("a", (Some 50, v1))] /\
       add "a" v2 (Some (Options (Some true) None)) r1 = (Ok tt, r2) /\
       content r2 = [("a", (None, v2))]).
Proof.
  split.
  - eexists. split; [reflexivity|].
    destruct (trigger_frame "UPDATE" (Payload "add" key value)
                (set_content (map_set key (None, value) (content r)) r)) as [Hc _].
    simpl in *. rewrite Hc. simpl. apply map_get_set_eq.
  - intros v1 v2. do 2 eexists. repeat split.
Qed.

(** *** The ordered views *)
Lemma getAll_view r : cache_ok r -> fst (getAll r) = map value_of (sort (content r)).
Proof.
  intros [H _]. unfold getAll. destruct (elements r) as [l|]; simpl; auto.
Qed.

Lemma getEntries_view r :
  cache_ok r -> fst (getEntries r) = map pair_of (sort (content r)).
Proof.
  intros [_ H]. unfold getEntries. destruct (entries r) as [l|]; simpl; auto.
Qed.

(** With numbers for all the stored sequences, [getAll()] and
    [getEntries()] return the values and the (key, value) pairs of the
    entries of [content], ordered by ascending sequence number; for the
    content [("x", 10, "A")], [("y", 5, "B")], [getEntries()] returns
    [("y", "B")], [("x", "A")]. *)
Lemma views_sorted_of_numbers (r : Registry) :
  cache_ok r ->
  (numbered (content r) ->
   exists items,
     Permutation items (content r) /\
     StronglySorted ascending items /\
     fst (getAll r) = map value_of items /\
     fst (getEntries r) = map pair_of items) /\
  (content r = [("x", (Some 10, VStr "A")); ("y", (Some 5, VStr "B"))] ->
   fst (getEntries r) = [("y", VStr "B"); ("x", VStr "A")]).
Proof.
  intros Hr. split.
  - intros Hn. exists (sort (content r)).
    split; [apply sort_Permutation|].
    split; [apply sort_StronglySorted, Hn|].
    split; [apply getAll_view | apply getEntries_view]; assumption.
  - intros Hc. rewrite (getEntries_view r Hr), Hc. reflexivity.
Qed.

(** *** [remove] *)

(** C4 (as the code has it).  [remove(key)] emits one UPDATE event with the
    operation "delete" and the key, whether the key is present or not.  Its
    value is what [content.get(key)] gave: [undefined] for an absent key, and
    the stored array [[sequence, value]], which holds the removed value, for
    a present one.  Afterwards the key is absent and the other keys are as
    before; for an absent key the content is unchanged. *)
Theorem remove_spec (r : Registry) (key : string) :
  emitted (remove key r) =
    (emitted r ++
     [("UPDATE",
       Payload "delete" key
         match map_get key (content r) with
         | Some (s, v) => VArr [of_number s; v]
         | None => VUndefined
         end)])%list /\
  map_has key (content (remove key r)) = false /\
  (forall key', key <> key' ->
     map_get key' (content (remove key r)) = map_get key' (content r)) /\
  (map_has key (content r) = false -> content (remove key r) = content r).
Proof.
  unfold remove.
  match goal with |- context [trigger ?t ?d ?x] =>
    destruct (trigger_frame t d x) as (Hc & _ & _ & _ & _ & He) end.
  simpl in Hc, He. rewrite Hc, He. clear Hc He.
  split; [|split; [|split]].
  - destruct (map_get key (content r)) as [[s v]|]; reflexivity.
  - apply map_has_false, map_get_delete_eq.
  - intros key' Hne. apply map_get_delete_ne; auto.
  - intros H. apply map_delete_absent, map_has_false; auto.
Qed.

(** *** [get] *)

(** C5.  [get(key, fallback)] throws exactly when the key is absent and the
    fallback is [undefined] (left out), and what it throws is a
    KeyNotFoundError; for an absent key and another fallback, [null] and
    [false] among them, it returns the fallback. *)
Theorem get_fallback (r : Registry) (key : string) (fallback : jsval) :
  ((exists e, get key fallback r = Throw e) <->
   map_has key (content r) = false /\ fallback = VUndefined) /\
  (forall e, get key fallback r = Throw e ->
     e = KeyNotFoundError ("Cannot find " +:+ key +:+ " in this registry!")) /\
  (map_has key (content r) = false -> fallback <> VUndefined ->
   get key fallback r = Ok fallback) /\
  (map_has key (content r) = false ->
   get key VNull r = Ok VNull /\ get key (VBool false) r = Ok (VBool false)).
Proof.
  unfold get, map_has.
  destruct (map_get key (content r)) as [info|] eqn:E; simpl.
  - rewrite andb_false_r. split; [split|split; [|split]].
    + intros [e He]. discriminate.
    + intros [H _]. discriminate.
    + intros e He. discriminate.
    + intros H. discriminate.
    + intros H. discriminate.
  - rewrite andb_true_r. split; [split|split; [|split]].
    + intros [e He]. destruct fallback; try discriminate. auto.
    + intros [_ ->]. eauto.
    + intros e He. destruct fallback; try discriminate. congruence.
    + intros _ Hne. destruct fallback; try reflexivity. congruence.
    + intros _. auto.
Qed.

(** C7.  With [force] false or left out, [add] throws exactly when the key
    is present; what it throws is a DuplicatedKeyError, and the registry
    (content, caches, events) is as it was. *)
Theorem add_duplicate (r : Registry) (key : string) (value : jsval)
    (opts : option options) :
  truthy_flag (force_of opts) = false ->
  ((exists e, fst (add key value opts r) = Throw e) <->
   map_has key (content r) = true) /\
  (map_has key (content r) = true ->
   add key value opts r =
   (Throw (DuplicatedKeyError
      ("Cannot add '" +:+ key +:+ "' in this registry: it already exists")), r)).
Proof.
  intros Hf. split; [split|].
  - intros [e He]. destruct (map_has key (content r)) eqn:Hk; auto.
    destruct (add_ok key value opts r (or_intror Hk)) as (s & r' & H & _).
    rewrite H in He. discriminate.
  - intros Hk. rewrite (add_throws key value opts r Hf Hk). simpl. eauto.
  - apply add_throws; auto.
Qed.

(** *** [add] then [get] *)
Lemma get_present key fallback r s v :
  map_get key (content r) = Some (s, v) -> get key fallback r = Ok v.
Proof.
  intros H. unfold get, map_has. rewrite H. simpl.
  rewrite andb_false_r. reflexivity.
Qed.

Lemma add_all_other calls : forall r r' key,
  add_all calls r = (Ok tt, r') ->
  key ∉ map call_key calls ->
  map_get key (content r') = map_get key (content r).
Proof.
  induction calls as [|c calls IH]; simpl; intros r r' key H Hk.
  - injection H as <-. reflexivity.
  - destruct (add (call_key c) (call_value c) (call_options c) r)
      as [[[]|e] r1] eqn:E; [|discriminate].
    apply not_elem_of_cons in Hk as [Hne Hk].
    rewrite (IH _ _ _ H Hk).
    apply (add_get _ _ _ _ _ E). auto.
Qed.

Lemma add_all_fresh calls : forall r,
  NoDup (map call_key calls) ->
  Forall (fun c => map_has (call_key c) (content r) = false) calls ->
  exists r', add_all calls r = (Ok tt, r').
Proof.
  induction calls as [|c calls IH]; simpl; intros r Hnd Hfresh.
  - eauto.
  - apply NoDup_cons in Hnd as [Hc Hnd].
    apply Forall_cons in Hfresh as [Hf Hfresh].
    destruct (add_ok (call_key c) (call_value c) (call_options c) r
                (or_intror Hf)) as (s & r1 & E & _).
    rewrite E. apply IH; auto.
    apply Forall_forall. intros c' Hc'.
    rewrite Forall_forall in Hfresh. specialize (Hfresh c' Hc').
    unfold map_has in *.
    rewrite (proj2 (add_get _ _ _ _ _ E) (call_key c')); auto.
    intros Heq. apply Hc. rewrite Heq. apply list_elem_of_fmap. eauto.
Qed.

(** C8.  After a sequence of [add] calls with pairwise distinct keys,
    [get(k)] returns, for each call, the value that was added under its key
    (with any fallback).  The calls all succeed when, moreover, none of their
    keys is in the registry they start from, the empty one for instance. *)
Theorem add_then_get (calls : list add_call) (r : Registry) :
  NoDup (map call_key calls) ->
  (Forall (fun c => map_has (call_key c) (content r) = false) calls ->
   exists r', add_all calls r = (Ok tt, r')) /\
  (forall r', add_all calls r = (Ok tt, r') ->
   forall c fallback, c ∈ calls ->
     get (call_key c) fallback r' = Ok (call_value c)).
Proof.
  intros Hnd. split; [apply add_all_fresh; assumption|].
  revert r Hnd. induction calls as [|c calls IH]; simpl; intros r Hnd r' H c' d Hin.
  - inversion Hin.
  - apply NoDup_cons in Hnd as [Hc Hnd].
    destruct (add (call_key c) (call_value c) (call_options c) r)
      as [[[]|e] r1] eqn:E; [|discriminate].
    apply elem_of_cons in Hin as [->|Hin].
    + destruct (proj1 (add_get _ _ _ _ _ E)) as [s Hs].
      apply (get_present _ _ _ s).
      rewrite (add_all_other _ _ _ _ H Hc). exact Hs.
    + eapply IH; eauto.
Qed.

(** *** [addValidation] *)
Section ValidationFacts.
Variable validate : jsval -> jsval -> option string.

Lemma validate_entries_None nm schema es :
  validate_entries validate nm schema es = None <->
  Forall (fun kv => validate (snd kv) schema = None) es.
Proof.
  induction es as [|[k v] es IH]; simpl.
  - split; auto.
  - unfold validateSchema. destruct (validate v schema) eqn:E.
    + split; [discriminate|]. intros H. inversion H; subst. simpl in *. congruence.
    + rewrite IH. split; intros H.
      * constructor; auto.
      * inversion H; auto.
Qed.

Lemma validate_entries_Some nm schema es e :
  validate_entries validate nm schema es = Some e ->
  exists passed key value rest err,
    es = (passed ++ (key, value) :: rest)%list /\
    Forall (fun kv => validate (snd kv) schema = None) passed /\
    validate value schema = Some err /\
    e = Error (validation_message nm key err).
Proof.
  induction es as [|[k v] es IH]; simpl; [discriminate|].
  unfold validateSchema. destruct (validate v schema) as [err|] eqn:E.
  - intros [= <-]. exists [], k, v, es, err. auto.
  - intros H. destruct (IH H) as (p & k' & v' & rest & err & -> & Hp & Hv & ->).
    exists ((k, v) :: p), k', v', rest, err. repeat split; auto.
Qed.

Lemma addValidation_unset schema r :
  truthy (validationSchema r) = false ->
  addValidation validate schema r =
  (match validate_entries validate (name r) schema
           (fst (getEntries (set_validationSchema schema r))) with
   | Some e => Throw e
   | None => Ok tt
   end,
   snd (getEntries (set_validationSchema schema r))).
Proof.
  intros H. unfold addValidation. rewrite H.
  destruct (getEntries (set_validationSchema schema r)) as [es r1] eqn:E.
  assert (Hn : name r1 = name r).
  { unfold getEntries in E. simpl in E.
    destruct (entries r); injection E as <- <-; reflexivity. }
  simpl. rewrite Hn.
  destruct (validate_entries validate (name r) schema es); reflexivity.
Qed.

Lemma addValidation_set schema r :
  truthy (validationSchema r) = true ->
  addValidation validate schema r = (Throw already_set, r).
Proof. intros H. unfold addValidation. rewrite H. reflexivity. Qed.

(** What [addValidation] does.  On a registry with no schema, or a falsy
    one, [addValidation(schema)] stores the schema and validates the
    entries of the store in the order of [getEntries()]: it returns when
    every entry passes and throws the validation error of the first entry
    that does not.  After that, if the schema stored is truthy (an object
    or an array is), every further call throws "Validation schema already
    set on this registry" and changes nothing. *)
Theorem addValidation_once (r : Registry) (schema : jsval) :
  cache_ok r ->
  truthy (validationSchema r) = false ->
  exists x r1,
    addValidation validate schema r = (x, r1) /\
    validationSchema r1 = schema /\
    content r1 = content r /\
    (x = Ok tt <->
     Forall (fun el => validate (value_of el) schema = None) (content r)) /\
    (forall e, x = Throw e ->
       exists passed key value rest err,
         fst (getEntries r) = (passed ++ (key, value) :: rest)%list /\
         Forall (fun kv => validate (snd kv) schema = None) passed /\
         validate value schema = Some err /\
         e = Error (validation_message (name r) key err)) /\
    (truthy schema = true ->
     forall schema',
       addValidation validate schema' r1 = (Throw already_set, r1)).
Proof.
  intros Hr Hs. rewrite (addValidation_unset schema r Hs).
  assert (Hes : fst (getEntries (set_validationSchema schema r)) =
                map pair_of (sort (content r))).
  { apply (getEntries_view (set_validationSchema schema r)).
    destruct Hr as [H1 H2]. split; simpl; auto. }
  assert (Hes' : fst (getEntries r) = map pair_of (sort (content r)))
    by (apply getEntries_view; auto).
  assert (Hr1 : validationSchema (snd (getEntries (set_validationSchema schema r))) = schema /\
                content (snd (getEntries (set_validationSchema schema r))) = content r).
  { unfold getEntries. simpl. destruct (entries r); simpl; auto. }
  destruct Hr1 as [Hv Hc].
  do 2 eexists. split; [reflexivity|].
  split; [exact Hv|]. split; [exact Hc|].
  rewrite Hes, <- Hes'. split; [|split].
  - destruct (validate_entries validate (name r) schema (fst (getEntries r)))
      as [e|] eqn:E.
    + split; [discriminate|]. intros H. exfalso.
      assert (E' : validate_entries validate (name r) schema (fst (getEntries r)) = None).
      { apply validate_entries_None. rewrite Hes'.
        apply List.Forall_map. rewrite sort_Permutation. exact H. }
      congruence.
    + split; [|reflexivity]. intros _.
      apply validate_entries_None in E. rewrite Hes' in E.
      apply List.Forall_map in E. rewrite sort_Permutation in E. exact E.
  - intros e He.
    destruct (validate_entries validate (name r) schema (fst (getEntries r)))
      as [e'|] eqn:E; [|discriminate].
    injection He as ->. apply validate_entries_Some; auto.
  - intros Ht schema'. apply addValidation_set. rewrite Hv. exact Ht.
Qed.

End ValidationFacts.

(** C6 (what the code does where the claim fails).  On a new registry,
    [addValidation(null)] returns and leaves the schema [null]; the guard of
    the second call, a test of truthiness, takes it for no schema, and
    [addValidation({})] returns too instead of throwing. *)
Theorem addValidation_twice_after_null :
  exists r1,
    addValidation (fun _ _ => None) VNull registry = (Ok tt, r1) /\
    fst (addValidation (fun _ _ => None) (VObj 0) r1) = Ok tt /\
    forall e, fst (addValidation (fun _ _ => None) (VObj 0) r1) <> Throw e.
Proof.
  eexists. split; [reflexivity|]. split; [reflexivity|].
  intros e. simpl. discriminate.
Qed.

(** *** The invariant *)
Lemma keeps_identity_refl r : keeps_identity r r.
Proof. split; auto. Qed.

Lemma keeps_identity_trans r1 r2 r3 :
  keeps_identity r1 r2 -> keeps_identity r2 r3 -> keeps_identity r1 r3.
Proof. intros [N1 S1] [N2 S2]. split; [congruence|auto]. Qed.

Lemma same_store_identity r r' : same_store r r' -> keeps_identity r r'.
Proof. intros (_ & S & N & _). split; [auto|]. rewrite S. auto. Qed.

Lemma registry_ok_constructor n : registry_ok (constructor n).
Proof.
  split.
  - split; simpl; discriminate.
  - exists []. reflexivity.
Qed.

(** A mutation: the store is changed, then the event is dispatched. *)
Lemma mutation_spec (r : Registry) c detail :
  registry_ok r ->
  let r' := trigger "UPDATE" detail (set_content c r) in
  registry_ok r' /\ keeps_identity r r' /\ content r' = c /\
  reads_fresh c r r' /\
  exists subscribers,
    listeners r = LInvalidate :: subscribers /\
    r' = foldl run_listener
           (invalidate (emit ("UPDATE", detail) (set_content c r))) subscribers.
Proof.
  intros [Hc [subs Hl]]. simpl.
  assert (Hf : invalidates_first (set_content c r)) by (exists subs; exact Hl).
  destruct (trigger_spec "UPDATE" detail (set_content c r) Hf)
    as (A & B & C & D & E & F & G & H).
  simpl in *. split; [|split; [|split; [|split]]].
  - split; [exact G|]. exists subs. congruence.
  - split; [exact C|]. rewrite B. auto.
  - exact A.
  - exact H.
  - exists subs. split; [exact Hl|].
    apply (trigger_invalidates_first "UPDATE" detail (set_content c r) subs Hl).
Qed.

Lemma add_preserves key value opts r :
  registry_ok r ->
  registry_ok (snd (add key value opts r)) /\
  keeps_identity r (snd (add key value opts r)).
Proof.
  intros Hr.
  destruct (truthy_flag (force_of opts)) eqn:Hf;
    [|destruct (map_has key (content r)) eqn:Hk].
  - destruct (add_ok key value opts r (or_introl Hf)) as (s & r' & -> & ->).
    simpl. destruct (mutation_spec r (map_set key (s, value) (content r))
                       (Payload "add" key value) Hr) as (A & B & _). auto.
  - rewrite (add_throws key value opts r Hf Hk). simpl.
    auto using keeps_identity_refl.
  - destruct (add_ok key value opts r (or_intror Hk)) as (s & r' & -> & ->).
    simpl. destruct (mutation_spec r (map_set key (s, value) (content r))
                       (Payload "add" key value) Hr) as (A & B & _). auto.
Qed.

Lemma remove_preserves key r :
  registry_ok r -> registry_ok (remove key r) /\ keeps_identity r (remove key r).
Proof.
  intros Hr. unfold remove.
  match goal with |- context [trigger _ ?d (set_content ?c r)] =>
    destruct (mutation_spec r c d Hr) as (A & B & _) end.
  auto.
Qed.

Lemma getAll_preserves r :
  registry_ok r -> registry_ok (snd (getAll r)) /\ keeps_identity r (snd (getAll r)).
Proof.
  intros [[H1 H2] Hl]. unfold getAll. destruct (elements r) as [l|] eqn:E; simpl.
  - split; [|apply keeps_identity_refl]. split; [split|]; auto.
    rewrite E. auto.
  - split; [|split; auto]. split; [split|]; simpl; auto.
    intros l [= <-]. reflexivity.
Qed.

Lemma getEntries_preserves r :
  registry_ok r ->
  registry_ok (snd (getEntries r)) /\ keeps_identity r (snd (getEntries r)).
Proof.
  intros [[H1 H2] Hl]. unfold getEntries. destruct (entries r) as [l|] eqn:E; simpl.
  - split; [|apply keeps_identity_refl]. split; [split|]; auto.
    rewrite E. auto.
  - split; [|split; auto]. split; [split|]; simpl; auto.
    intros l [= <-]. reflexivity.
Qed.

Lemma addEventListener_preserves script r :
  registry_ok r ->
  registry_ok (addEventListener script r) /\
  keeps_identity r (addEventListener script r).
Proof.
  intros [[H1 H2] [subs Hl]]. split; [|split; auto].
  split; [split; auto|].
  exists (subs ++ [LSubscriber script])%list. simpl. rewrite Hl. reflexivity.
Qed.

Section InvariantFacts.
Variable validate : jsval -> jsval -> option string.

Lemma addValidation_preserves schema r :
  registry_ok r ->
  registry_ok (snd (addValidation validate schema r)) /\
  keeps_identity r (snd (addValidation validate schema r)).
Proof.
  intros Hr. destruct (truthy (validationSchema r)) eqn:Hs.
  - rewrite (addValidation_set validate schema r Hs). simpl.
    auto using keeps_identity_refl.
  - rewrite (addValidation_unset validate schema r Hs). simpl.
    assert (Hr' : registry_ok (set_validationSchema schema r)).
    { destruct Hr as [[H1 H2] Hl]. split; [split|]; auto. }
    destruct (getEntries_preserves _ Hr') as [A B]. split; [exact A|].
    eapply keeps_identity_trans; [|exact B]. split; auto.
Qed.

Lemma call_spec {A : Type} (f : Registry -> A * Registry) this (h : heap) r :
  h !! this = Some r ->
  call f this h = Some (fst (f r), <[this := snd (f r)]> h).
Proof. intros H. unfold call. rewrite H. destruct (f r); reflexivity. Qed.

Lemma heap_ok_insert (h : heap) this r' :
  heap_ok h -> registry_ok r' -> heap_ok (<[this := r']> h).
Proof. intros Hh Hr'. apply Forall_insert; auto. Qed.

Lemma heap_extends_insert (h : heap) this r r' :
  h !! this = Some r -> keeps_identity r r' ->
  heap_extends h (<[this := r']> h).
Proof.
  intros Hthis Hk a ra Ha. destruct (decide (a = this)) as [->|Hne].
  - exists r'. split.
    + apply list_lookup_insert_eq. eapply lookup_lt_Some; eauto.
    + congruence.
  - exists ra. split; [|apply keeps_identity_refl].
    rewrite list_lookup_insert_ne; auto.
Qed.

(** One call: it is defined on an object of the heap, keeps the invariant
    of every object, the names and the sub-registries. *)
Lemma step_spec (o : op) (this : addr) (h : heap) (r : Registry) :
  heap_ok h -> h !! this = Some r ->
  exists res h',
    step validate o this h = Some (res, h') /\ heap_ok h' /\ heap_extends h h'.
Proof.
  intros Hh Hthis.
  assert (Hr : registry_ok r) by (eapply Forall_lookup_1; eauto).
  assert (Hcall : forall (f : Registry -> result * Registry),
             registry_ok (snd (f r)) /\ keeps_identity r (snd (f r)) ->
             exists res h',
               call f this h = Some (res, h') /\ heap_ok h' /\ heap_extends h h').
  { intros f [A B]. rewrite (call_spec f this h r Hthis).
    do 2 eexists. split; [reflexivity|].
    split; [apply heap_ok_insert | eapply heap_extends_insert]; eauto. }
  destruct o; simpl.
  - apply Hcall. destruct (add_preserves key value opts r Hr) as [A B].
    destruct (add key value opts r); auto.
  - apply Hcall. simpl. auto using keeps_identity_refl.
  - apply Hcall. simpl. auto using keeps_identity_refl.
  - apply Hcall. simpl. apply remove_preserves; auto.
  - apply Hcall. destruct (getAll_preserves r Hr) as [A B].
    destruct (getAll r); auto.
  - apply Hcall. destruct (getEntries_preserves r Hr) as [A B].
    destruct (getEntries r); auto.
  - unfold category. rewrite Hthis.
    destruct (map_get subcategory (subRegistries r)) as [c|] eqn:E.
    + do 2 eexists. split; [reflexivity|]. split; [exact Hh|].
      intros a ra Ha. exists ra. auto using keeps_identity_refl.
    + do 2 eexists. split; [reflexivity|]. split.
      * apply heap_ok_insert.
        -- apply Forall_app. split; [exact Hh|].
           repeat constructor; apply registry_ok_constructor.
        -- destruct Hr as [[H1 H2] Hl]. split; [split|]; auto.
      * intros a ra Ha.
        assert (Ha' : (h ++ [constructor None])%list !! a = Some ra).
        { rewrite lookup_app_l; auto. eapply lookup_lt_Some; eauto. }
        destruct (decide (a = this)) as [->|Hne].
        -- eexists. split.
           ++ apply list_lookup_insert_eq. eapply lookup_lt_Some; eauto.
           ++ assert (ra = r) by congruence. subst ra.
              split; [reflexivity|]. simpl. intros sub' c' Hsub'.
              rewrite map_get_set_ne; auto.
              intros Heq. rewrite Heq in E. rewrite E in Hsub'. discriminate.
        -- exists ra. split; [|apply keeps_identity_refl].
           rewrite list_lookup_insert_ne; auto.
  - apply Hcall. destruct (addValidation_preserves schema r Hr) as [A B].
    destruct (addValidation validate schema r); auto.
  - apply Hcall. simpl. apply addEventListener_preserves; auto.
Qed.
(** The invariant holds in every state that calls lead to. *)
Lemma run_heap_ok calls : forall (h h' : heap),
  heap_ok h -> run validate calls h = Some h' -> heap_ok h'.
Proof.
  induction calls as [|[this o] calls IH]; simpl; intros h h' Hh H.
  - injection H as <-. exact Hh.
  - destruct (step validate o this h) as [[res h1]|] eqn:E; [|discriminate].
    apply (IH h1); auto.
    destruct (h !! this) as [r|] eqn:Hthis.
    + destruct (step_spec o this h r Hh Hthis) as (res' & h1' & E' & Hok & _).
      congruence.
    + destruct o; simpl in E; unfold call, category in E;
        rewrite Hthis in E; discriminate.
Qed.

Lemma reachable_heap_ok calls n (h : heap) :
  run validate calls [constructor n] = Some h -> heap_ok h.
Proof.
  apply run_heap_ok. apply Forall_singleton, registry_ok_constructor.
Qed.
End InvariantFacts.

(** *** Names and sub-registries *)
Lemma mutation_identity (r : Registry) c detail :
  keeps_identity r (trigger "UPDATE" detail (set_content c r)).
Proof.
  destruct (trigger_frame "UPDATE" detail (set_content c r)) as (_ & S & N & _).
  simpl in *. split; [exact N|]. rewrite S. auto.
Qed.

Lemma add_identity key value opts r :
  keeps_identity r (snd (add key value opts r)).
Proof.
  unfold add. destruct opts as [[f s]|];
    match goal with |- context [if ?b then _ else _] => destruct b end;
    simpl; auto using keeps_identity_refl, mutation_identity.
Qed.

Lemma getAll_identity r : keeps_identity r (snd (getAll r)).
Proof. unfold getAll. destruct (elements r); simpl; split; auto. Qed.

Lemma getEntries_identity r : keeps_identity r (snd (getEntries r)).
Proof. unfold getEntries. destruct (entries r); simpl; split; auto. Qed.

Lemma heap_extends_refl (h : heap) : heap_extends h h.
Proof. intros a r Ha. exists r. auto using keeps_identity_refl. Qed.

Lemma heap_extends_trans (h1 h2 h3 : heap) :
  heap_extends h1 h2 -> heap_extends h2 h3 -> heap_extends h1 h3.
Proof.
  intros H12 H23 a r Ha.
  destruct (H12 a r Ha) as (r2 & Ha2 & K2).
  destruct (H23 a r2 Ha2) as (r3 & Ha3 & K3).
  exists r3. eauto using keeps_identity_trans.
Qed.

Section Identity.
Variable validate : jsval -> jsval -> option string.

Lemma addValidation_identity schema r :
  keeps_identity r (snd (addValidation validate schema r)).
Proof.
  destruct (truthy (validationSchema r)) eqn:Hs.
  - rewrite (addValidation_set validate schema r Hs). apply keeps_identity_refl.
  - rewrite (addValidation_unset validate schema r Hs). simpl.
    eapply keeps_identity_trans; [|apply getEntries_identity]. split; auto.
Qed.

Lemma call_extends {A : Type} (f : Registry -> A * Registry) this (h h' : heap) a :
  (forall r, keeps_identity r (snd (f r))) ->
  call f this h = Some (a, h') -> heap_extends h h'.
Proof.
  intros Hf. unfold call. destruct (h !! this) as [r|] eqn:Hthis; [|discriminate].
  specialize (Hf r). destruct (f r) as [a' r']. intros [= <- <-].
  eapply heap_extends_insert; eauto.
Qed.

Lemma category_extends subcategory this (h h' : heap) c :
  category subcategory this h = Some (c, h') -> heap_extends h h'.
Proof.
  unfold category. destruct (h !! this) as [r|] eqn:Hthis; [|discriminate].
  destruct (map_get subcategory (subRegistries r)) as [c'|] eqn:E.
  - intros [= <- <-]. apply heap_extends_refl.
  - intros [= <- <-]. intros a ra Ha.
    destruct (decide (a = this)) as [->|Hne].
    + eexists. split.
      * apply list_lookup_insert_eq. rewrite length_app. simpl.
        apply lookup_lt_Some in Ha. lia.
      * assert (ra = r) by congruence. subst ra.
        split; [reflexivity|]. simpl. intros sub' c' Hsub'.
        rewrite map_get_set_ne; auto.
        intros Heq. rewrite Heq in E. rewrite E in Hsub'. discriminate.
    + exists ra. split; [|apply keeps_identity_refl].
      rewrite list_lookup_insert_ne; auto.
      rewrite lookup_app_l; auto. eapply lookup_lt_Some; eauto.
Qed.

Lemma step_extends o this (h h' : heap) res :
  step validate o this h = Some (res, h') -> heap_extends h h'.
Proof.
  destruct o; simpl; try (apply call_extends; intros r).
  - pose proof (add_identity key value opts r) as H.
    destruct (add key value opts r); exact H.
  - apply keeps_identity_refl.
  - apply keeps_identity_refl.
  - unfold remove. apply mutation_identity.
  - pose proof (getAll_identity r) as H. destruct (getAll r); exact H.
  - pose proof (getEntries_identity r) as H. destruct (getEntries r); exact H.
  - destruct (category subcategory this h) as [[c h1]|] eqn:E; [|discriminate].
    intros [= <- <-]. eapply category_extends; eauto.
  - pose proof (addValidation_identity schema r) as H.
    destruct (addValidation validate schema r); exact H.
  - split; auto.
Qed.

Lemma run_extends calls : forall (h h' : heap),
  run validate calls h = Some h' -> heap_extends h h'.
Proof.
  induction calls as [|[this o] calls IH]; simpl; intros h h' H.
  - injection H as <-. apply heap_extends_refl.
  - destruct (step validate o this h) as [[res h1]|] eqn:E; [|discriminate].
    eapply heap_extends_trans; [eapply step_extends|]; eauto.
Qed.

Lemma addValidation_message schema r e :
  fst (addValidation validate schema r) = Throw e ->
  e = already_set \/
  exists key err, e = Error (validation_message (name r) key err).
Proof.
  destruct (truthy (validationSchema r)) eqn:Hs.
  - rewrite (addValidation_set validate schema r Hs). simpl.
    intros [= <-]. auto.
  - rewrite (addValidation_unset validate schema r Hs). simpl.
    destruct (validate_entries validate (name r) schema
                (fst (getEntries (set_validationSchema schema r))))
      as [e'|] eqn:E; [|discriminate].
    intros [= <-]. right.
    destruct (validate_entries_Some _ _ _ _ _ E)
      as (_ & key & _ & _ & err & _ & _ & _ & ->).
    eauto.
Qed.


(** C10.  On a registry with no sub-registry of that name,
    [category(subcategory)] creates a new object, the one that
    [new Registry()] gives: its name is "root", it refers to no other
    registry.  After any calls on any objects, [category(subcategory)]
    returns this same object and creates nothing, its name still is
    "root", and a validation error that its [addValidation] throws has
    "root" for the name of the registry. *)
Theorem category_child (h : heap) (this : addr) (r : Registry)
    (subcategory : string) :
  h !! this = Some r ->
  map_get subcategory (subRegistries r) = None ->
  exists c h',
    category subcategory this h = Some (c, h') /\
    h !! c = None /\
    h' !! c = Some (constructor None) /\
    name (constructor None) = "root" /\
    forall calls h'',
      run validate calls h' = Some h'' ->
      category subcategory this h'' = Some (c, h'') /\
      exists child,
        h'' !! c = Some child /\
        name child = "root" /\
        forall schema e,
          fst (addValidation validate schema child) = Throw e ->
          e = already_set \/
          exists key err, e = Error (validation_message "root" key err).
Proof.
  intros Hthis Hsub.
  assert (Hlt : (this < length h)%nat) by (eapply lookup_lt_Some; eauto).
  unfold category at 1. rewrite Hthis, Hsub.
  do 2 eexists. split; [reflexivity|].
  split; [apply lookup_ge_None; lia|].
  assert (Hchild : forall x, <[this := x]> (h ++ [constructor None])%list !! length h
                   = Some (constructor None)).
  { intros x. rewrite list_lookup_insert_ne by lia.
    apply list_lookup_middle. reflexivity. }
  split; [apply Hchild|]. split; [reflexivity|].
  intros calls h'' Hrun.
  pose proof (run_extends calls _ _ Hrun) as Hext.
  split.
  - match type of Hext with heap_extends (<[_ := ?x]> ?l) _ =>
      assert (Hparent : <[this := x]> l !! this = Some x)
    end.
    { apply list_lookup_insert_eq. rewrite length_app. simpl. lia. }
    destruct (Hext this _ Hparent) as (r'' & Hr'' & _ & Hkeep).
    unfold category. rewrite Hr''.
    rewrite (Hkeep subcategory (length h)); [reflexivity|].
    simpl. apply map_get_set_eq.
  - destruct (Hext (length h) _ (Hchild _)) as (child & Hc & Hn & _).
    exists child. split; [exact Hc|]. split; [exact Hn|].
    intros schema e He.
    apply addValidation_message in He. simpl in Hn. rewrite Hn in He. exact He.
Qed.
End Identity.

(** The message of a validation error in a sub-registry. *)
Example category_child_message :
  let validate := fun (value schema : jsval) => Some "Invalid object" in
  exists c h1 h2 h3 e,
    category "views" 0 [registry] = Some (c, h1) /\
    step validate (OpAdd "form" (VObj 7) None) c h1 = Some (RThis, h2) /\
    step validate (OpAddValidation (VObj 8)) c h2 = Some (RThrow (Error e), h3) /\
    e = "Validation error for key " +:+ quote +:+ "form" +:+ quote +:+
        " in registry " +:+ quote +:+ "root" +:+ quote +:+ ": Invalid object".
Proof. simpl. do 5 eexists. repeat split. Qed.

(** ** Further properties of the registry *)

(** *** The map, again *)
Section MapOrder.
Context {T : Type}.
Implicit Types (m : list (string * T)) (key : string).

Lemma map_set_absent key (x : T) m :
  map_get key m = None -> map_set key x m = (m ++ [(key, x)])%list.
Proof.
  induction m as [|[k y] m IH]; simpl; [reflexivity|].
  destruct (decide (k = key)); [discriminate|].
  intros H. rewrite IH; auto.
Qed.

Lemma map_set_keys key (x y : T) m :
  map_get key m = Some y -> map fst (map_set key x m) = map fst m.
Proof.
  induction m as [|[k z] m IH]; simpl; [discriminate|].
  destruct (decide (k = key)) as [->|Hne]; simpl; [reflexivity|].
  intros H. rewrite IH; auto.
Qed.

Lemma map_delete_set_absent key (x : T) m :
  map_get key m = None -> map_delete key (map_set key x m) = m.
Proof.
  induction m as [|[k y] m IH]; simpl.
  - rewrite decide_True; auto.
  - destruct (decide (k = key)) as [->|Hne]; [discriminate|].
    intros H. simpl. rewrite decide_False, IH; auto.
Qed.

Lemma map_get_keys key m : map_get key m = None <-> key ∉ map fst m.
Proof.
  induction m as [|[k y] m IH]; simpl.
  - split; [intros _; apply not_elem_of_nil | reflexivity].
  - rewrite not_elem_of_cons. destruct (decide (k = key)) as [->|Hne].
    + split; [discriminate | intros [H _]; congruence].
    + rewrite IH. split; [intros H; split; auto | intros [_ H]; exact H].
Qed.

Lemma map_set_NoDup key (x : T) m :
  NoDup (map fst m) -> NoDup (map fst (map_set key x m)).
Proof.
  intros Hnd. destruct (map_get key m) as [y|] eqn:E.
  - rewrite (map_set_keys key x y m E). exact Hnd.
  - rewrite (map_set_absent key x m E), map_app. simpl.
    apply NoDup_app. split; [exact Hnd|]. split.
    + intros k Hk Hk'. apply list_elem_of_singleton in Hk'. subst k.
      apply map_get_keys in E. contradiction.
    + apply NoDup_singleton.
Qed.

Lemma map_delete_keys key m :
  map fst (map_delete key m) = filter (fun k => k <> key) (map fst m).
Proof.
  induction m as [|[k y] m IH]; simpl; [reflexivity|].
  rewrite filter_cons. simpl.
  destruct (decide (k = key)) as [->|Hne].
  - rewrite decide_False by (intros H; apply H; reflexivity). exact IH.
  - rewrite decide_True by exact Hne. simpl. rewrite IH. reflexivity.
Qed.

Lemma map_delete_NoDup key m :
  NoDup (map fst m) -> NoDup (map fst (map_delete key m)).
Proof. intros H. rewrite map_delete_keys. apply NoDup_filter, H. Qed.

Lemma map_get_elem_of key (x : T) m :
  NoDup (map fst m) -> (map_get key m = Some x <-> (key, x) ∈ m).
Proof.
  induction m as [|[k y] m IH]; simpl; intros Hnd.
  - split; [discriminate | intros H; inversion H].
  - apply NoDup_cons in Hnd as [Hk Hnd]. rewrite elem_of_cons.
    destruct (decide (k = key)) as [->|Hne].
    + split.
      * intros [= ->]. left. reflexivity.
      * intros [[= ->]|Hin]; [reflexivity|].
        exfalso. apply Hk. apply list_elem_of_fmap. exists (key, x). auto.
    + rewrite (IH Hnd). split; [auto|].
      intros [[= -> ->]|Hin]; [contradiction | exact Hin].
Qed.
End MapOrder.

(** *** What a mutation leaves *)
Lemma remove_frame key r :
  content (remove key r) = map_delete key (content r) /\
  emitted (remove key r) =
    (emitted r ++
     [("UPDATE",
       Payload "delete" key
         match map_get key (content r) with
         | Some elem => VArr [of_number (fst elem); snd elem]
         | None => VUndefined
         end)])%list.
Proof.
  unfold remove.
  match goal with |- context [trigger ?t ?d ?x] =>
    destruct (trigger_frame t d x) as (Hc & _ & _ & _ & _ & He) end.
  simpl in Hc, He. auto.
Qed.

Lemma add_frame key value opts r r' :
  add key value opts r = (Ok tt, r') ->
  exists s,
    content r' = map_set key (s, value) (content r) /\
    emitted r' = (emitted r ++ [("UPDATE", Payload "add" key value)])%list /\
    name r' = name r /\ validationSchema r' = validationSchema r /\
    subRegistries r' = subRegistries r /\ listeners r' = listeners r.
Proof.
  intros H.
  assert (Hpre : truthy_flag (force_of opts) = true \/ map_has key (content r) = false).
  { destruct (truthy_flag (force_of opts)) eqn:Hf; auto.
    destruct (map_has key (content r)) eqn:Hk; auto.
    rewrite (add_throws key value opts r Hf Hk) in H. discriminate. }
  destruct (add_ok key value opts r Hpre) as (s & r1 & H1 & ->).
  rewrite H1 in H. injection H as <-.
  destruct (trigger_frame "UPDATE" (Payload "add" key value)
              (set_content (map_set key (s, value) (content r)) r))
    as (Hc & Hs & Hn & Hv & Hl & He).
  simpl in *. exists s. auto 10.
Qed.

Lemma getAll_content r : content (snd (getAll r)) = content r.
Proof. unfold getAll. destruct (elements r); reflexivity. Qed.

Lemma getEntries_content r : content (snd (getEntries r)) = content r.
Proof. unfold getEntries. destruct (entries r); reflexivity. Qed.

(** *** Lookups *)

(** X1.  [contains(key)] tells whether [get(key)] returns: when it is true,
    [get] returns the stored value, with or without a fallback; when it is
    false, [get] without a fallback throws. *)
Theorem contains_get (r : Registry) (key : string) :
  (contains key r = true <-> exists v, get key VUndefined r = Ok v) /\
  (contains key r = true ->
   forall fallback, get key fallback r = get key VUndefined r) /\
  (contains key r = false <-> exists e, get key VUndefined r = Throw e).
Proof.
  unfold contains, get, map_has.
  destruct (map_get key (content r)) as [[s v]|]; simpl.
  - split; [|split].
    + split; eauto.
    + intros _ fallback. rewrite andb_false_r. reflexivity.
    + split; [discriminate | intros [e He]; discriminate].
  - split; [|split].
    + split; [discriminate | intros [v Hv]; discriminate].
    + discriminate.
    + split; eauto.
Qed.

(** *** What [add] leaves behind *)

(** X2.  An [add] that succeeds dispatches exactly one event, "UPDATE" with
    the operation "add", the key and the value it was given, and leaves the
    name, the schema, the sub-registries and the listeners as they were. *)
Theorem add_emits (r r' : Registry) (key : string) (value : jsval)
    (opts : option options) :
  add key value opts r = (Ok tt, r') ->
  emitted r' = (emitted r ++ [("UPDATE", Payload "add" key value)])%list /\
  name r' = name r /\ validationSchema r' = validationSchema r /\
  subRegistries r' = subRegistries r /\ listeners r' = listeners r.
Proof.
  intros H. destruct (add_frame key value opts r r' H) as (s & _ & He & Hrest).
  split; [exact He | exact Hrest].
Qed.

(** X3.  [add(key, value)] with no options, on a key that is absent, puts
    the entry [[50, value]] behind the entries that are there. *)
Theorem add_default (r : Registry) (key : string) (value : jsval) :
  map_has key (content r) = false ->
  exists r',
    add key value None r = (Ok tt, r') /\
    content r' = (content r ++ [(key, (Some 50, value))])%list.
Proof.
  intros Hk. unfold add. rewrite Hk. simpl. eexists. split; [reflexivity|].
  destruct (trigger_frame "UPDATE" (Payload "add" key value)
              (set_content (map_set key (Some 50, value) (content r)) r)) as [Hc _].
  simpl in Hc. rewrite Hc. apply map_set_absent, map_has_false, Hk.
Qed.

(** X4.  [add] with [force] on a key that is present succeeds whatever the
    other option, replaces the value and keeps the keys and their order. *)
Theorem add_force_in_place (r : Registry) (key : string) (value : jsval)
    (sequence : option Z) :
  map_has key (content r) = true ->
  exists r',
    add key value (Some (Options (Some true) sequence)) r = (Ok tt, r') /\
    map fst (content r') = map fst (content r) /\
    forall fallback, get key fallback r' = Ok value.
Proof.
  intros Hk. apply map_has_get in Hk as [old Hold].
  destruct (add_ok key value (Some (Options (Some true) sequence)) r
              (or_introl eq_refl)) as (s & r' & H & ->).
  exists (trigger "UPDATE" (Payload "add" key value)
            (set_content (map_set key (s, value) (content r)) r)).
  split; [exact H|].
  destruct (trigger_frame "UPDATE" (Payload "add" key value)
              (set_content (map_set key (s, value) (content r)) r)) as [Hc _].
  simpl in Hc. split.
  - rewrite Hc. apply (map_set_keys key (s, value) old). exact Hold.
  - intros fallback. apply (get_present key fallback _ s).
    rewrite Hc. apply map_get_set_eq.
Qed.

(** *** [remove] and the lookups *)

(** X5.  After [remove(key)] the key is not contained, [get(key)] throws a
    KeyNotFoundError and [get(key, fallback)] returns the fallback; the other
    keys are looked up as before. *)
Theorem remove_then_get (r : Registry) (key : string) :
  contains key (remove key r) = false /\
  get key VUndefined (remove key r) =
    Throw (KeyNotFoundError ("Cannot find " +:+ key +:+ " in this registry!")) /\
  (forall fallback, fallback <> VUndefined ->
     get key fallback (remove key r) = Ok fallback) /\
  (forall key' fallback, key <> key' ->
     get key' fallback (remove key r) = get key' fallback r).
Proof.
  destruct (remove_frame key r) as [Hc _].
  assert (Hk : map_get key (content (remove key r)) = None).
  { rewrite Hc. apply map_get_delete_eq. }
  unfold contains, get, map_has. rewrite Hk. simpl.
  split; [reflexivity|]. split; [reflexivity|]. split.
  - intros fallback Hf. destruct fallback; try reflexivity. congruence.
  - intros key' fallback Hne. rewrite Hc, (map_get_delete_ne key key' _ Hne).
    reflexivity.
Qed.

(** X6.  Adding a key that is absent and removing it gives the content back;
    two events have been dispatched, the one of the removal carrying the
    array [[sequence, value]] that was stored. *)
Theorem add_remove_roundtrip (r r' : Registry) (key : string) (value : jsval)
    (opts : option options) :
  map_has key (content r) = false ->
  add key value opts r = (Ok tt, r') ->
  content (remove key r') = content r /\
  exists s,
    map_get key (content r') = Some (s, value) /\
    emitted (remove key r') =
    (emitted r ++ [("UPDATE", Payload "add" key value);
                   ("UPDATE", Payload "delete" key (VArr [of_number s; value]))])%list.
Proof.
  intros Hk H.
  destruct (add_ok key value opts r (or_intror Hk)) as (s & r1 & H1 & ->).
  rewrite H1 in H. injection H as <-.
  destruct (trigger_frame "UPDATE" (Payload "add" key value)
              (set_content (map_set key (s, value) (content r)) r))
    as (Hc & _ & _ & _ & _ & He).
  simpl in Hc, He.
  destruct (remove_frame key
              (trigger "UPDATE" (Payload "add" key value)
                 (set_content (map_set key (s, value) (content r)) r)))
    as (Hc' & Hev).
  split.
  - rewrite Hc', Hc.
    apply map_delete_set_absent, map_has_false, Hk.
  - exists s. split.
    + rewrite Hc. apply map_get_set_eq.
    + rewrite Hev, He, Hc, map_get_set_eq, <- app_assoc. reflexivity.
Qed.

(** *** The ordered views, again *)

(** X7.  A view that is asked for again is the same list, the second call
    changing nothing; and asking for one view does not change the other. *)
Theorem views_repeatable (r : Registry) :
  getAll (snd (getAll r)) = getAll r /\
  getEntries (snd (getEntries r)) = getEntries r /\
  fst (getEntries (snd (getAll r))) = fst (getEntries r) /\
  fst (getAll (snd (getEntries r))) = fst (getAll r) /\
  content (snd (getAll r)) = content r /\
  content (snd (getEntries r)) = content r.
Proof.
  unfold getAll, getEntries.
  destruct (elements r) as [l|] eqn:E, (entries r) as [l'|] eqn:E';
    simpl; rewrite ?E, ?E'; auto 10.
Qed.

Lemma map_fst_pair_of l : map fst (map pair_of l) = map fst l.
Proof.
  induction l as [|[k [s v]] l IH]; simpl; [reflexivity|].
  rewrite IH. reflexivity.
Qed.

Lemma map_snd_pair_of l : map snd (map pair_of l) = map value_of l.
Proof.
  induction l as [|[k [s v]] l IH]; simpl; [reflexivity|].
  rewrite IH. reflexivity.
Qed.

(** X8.  The values of [getAll()] are those of the pairs of [getEntries()],
    in the same order, and the keys of [getEntries()] are the keys of the
    content, each as often as there. *)
Theorem views_agree (r : Registry) :
  cache_ok r ->
  fst (getAll r) = map snd (fst (getEntries r)) /\
  Permutation (map fst (fst (getEntries r))) (map fst (content r)) /\
  length (fst (getAll r)) = length (content r).
Proof.
  intros Hr. rewrite (getAll_view r Hr), (getEntries_view r Hr).
  rewrite map_snd_pair_of, map_fst_pair_of. split; [reflexivity|]. split.
  - apply Permutation_map, sort_Permutation.
  - rewrite length_map. apply Permutation_length, sort_Permutation.
Qed.

(** X9.  With distinct keys in the content, the pairs of [getEntries()] are
    the (key, value) for which [get(key)] returns the value. *)
Theorem getEntries_get (r : Registry) (key : string) (value : jsval) :
  cache_ok r ->
  keys_unique r ->
  ((key, value) ∈ fst (getEntries r) <-> get key VUndefined r = Ok value).
Proof.
  intros Hr Hu. rewrite (getEntries_view r Hr). split.
  - intros Hin. apply list_elem_of_fmap in Hin as ([k [s v]] & Heq & Hin).
    unfold pair_of in Heq. simpl in Heq. injection Heq as -> ->.
    rewrite sort_Permutation in Hin.
    apply (get_present _ _ _ s).
    apply (map_get_elem_of k (s, v) (content r) Hu). exact Hin.
  - unfold get, map_has.
    destruct (map_get key (content r)) as [[s v]|] eqn:E; simpl; [|discriminate].
    intros [= <-]. apply list_elem_of_fmap. exists (key, (s, v)).
    split; [reflexivity|]. rewrite sort_Permutation.
    apply (map_get_elem_of key (s, v) (content r) Hu). exact E.
Qed.

Lemma stable_sort_equal_sequences n l :
  Forall (fun el => sequence_of el = Some n) l -> stable_sort l = l.
Proof.
  induction l as [|el l IH]; simpl; intros H; [reflexivity|].
  apply Forall_cons in H as [Hel Hl]. rewrite (IH Hl).
  destruct l as [|el' l]; simpl; [reflexivity|].
  apply Forall_cons in Hl as [Hel' _].
  unfold before, compare. rewrite Hel, Hel', Z.sub_diag. reflexivity.
Qed.

(** X10.  With numbers for all the stored sequences, entries of one
    sequence number come in [getEntries()] in the order in which the content
    has them; when all the entries have the same sequence number, both views
    are in the order of the content. *)
Theorem equal_sequences_keep_order (r : Registry) (n : Z) :
  cache_ok r ->
  (numbered (content r) ->
   sublist (map pair_of (filter (fun el => sequence_of el = Some n) (content r)))
           (fst (getEntries r))) /\
  (Forall (fun el => sequence_of el = Some n) (content r) ->
   fst (getEntries r) = map pair_of (content r) /\
   fst (getAll r) = map value_of (content r)).
Proof.
  intros Hr. rewrite (getEntries_view r Hr), (getAll_view r Hr). split.
  - intros Hn. rewrite <- (sort_stable n (content r) Hn).
    apply (fmap_sublist pair_of), sublist_filter.
  - intros H.
    assert (Hn : numbered (content r)).
    { eapply Forall_impl; [exact H|]. simpl. eauto. }
    rewrite (sort_numbered _ Hn), (stable_sort_equal_sequences n _ H). auto.
Qed.

(** *** Calls on a heap of registries *)
Section HeapFacts.
Variable validate : jsval -> jsval -> option string.

Lemma call_inv {A : Type} (f : Registry -> A * Registry) this (h h' : heap) x :
  call f this h = Some (x, h') ->
  exists r, h !! this = Some r /\ x = fst (f r) /\ h' = <[this := snd (f r)]> h.
Proof.
  unfold call. destruct (h !! this) as [r|]; [|discriminate].
  intros H. exists r. split; [reflexivity|].
  destruct (f r) as [a r']. injection H as <- <-. split; reflexivity.
Qed.

Lemma category_inv subcategory this (h h' : heap) c :
  category subcategory this h = Some (c, h') ->
  exists r,
    h !! this = Some r /\
    ((map_get subcategory (subRegistries r) = Some c /\ h' = h) \/
     (map_get subcategory (subRegistries r) = None /\ c = length h /\
      h' = <[this := set_subRegistries
                        (map_set subcategory c (subRegistries r)) r]>
             (h ++ [constructor None])%list)).
Proof.
  unfold category. destruct (h !! this) as [r|]; [|discriminate].
  destruct (map_get subcategory (subRegistries r)) as [c'|] eqn:E.
  - intros [= <- <-]. eauto.
  - intros [= <- <-]. exists r. split; [reflexivity|]. right. auto.
Qed.

(** The object that a method other than [category] leaves at [this]. *)
Lemma step_inv o this (h h' : heap) res :
  step validate o this h = Some (res, h') ->
  exists r,
    h !! this = Some r /\
    match o with
    | OpCategory subcategory =>
        exists c, res = RRegistry c /\ category subcategory this h = Some (c, h')
    | OpAdd key value opts => h' = <[this := snd (add key value opts r)]> h
    | OpRemove key => h' = <[this := remove key r]> h
    | OpGetAll => h' = <[this := snd (getAll r)]> h
    | OpGetEntries => h' = <[this := snd (getEntries r)]> h
    | OpAddValidation schema =>
        h' = <[this := snd (addValidation validate schema r)]> h
    | OpAddEventListener script => h' = <[this := addEventListener script r]> h
    | OpGet _ _ | OpContains _ => h' = <[this := r]> h
    end.
Proof.
  destruct o; simpl; intros H;
    try (apply call_inv in H as (r & Hr & _ & ->); exists r; split; [exact Hr|]).
  - destruct (add key value opts r); reflexivity.
  - reflexivity.
  - reflexivity.
  - reflexivity.
  - destruct (getAll r); reflexivity.
  - destruct (getEntries r); reflexivity.
  - destruct (category subcategory this h) as [[c h1]|] eqn:E; [|discriminate].
    injection H as <- <-.
    destruct (category_inv _ _ _ _ _ E) as (r & Hr & _).
    exists r. split; [exact Hr|]. eauto.
  - destruct (addValidation validate schema r); reflexivity.
  - reflexivity.
Qed.

(** X12.  The methods other than [add] and [remove] change the content of no
    registry and dispatch no event, so that no subscriber runs. *)
Theorem reads_change_nothing (o : op) (this a : addr) (h h' : heap)
    (res : result) (r : Registry) :
  reads_only o = true ->
  step validate o this h = Some (res, h') ->
  h !! a = Some r ->
  exists r',
    h' !! a = Some r' /\ content r' = content r /\
    emitted r' = emitted r /\ observed r' = observed r.
Proof.
  intros Ho H Ha. destruct (decide (a = this)) as [->|Hne].
  - pose proof H as H0. apply step_inv in H0 as (r0 & Hr0 & H0).
    assert (r0 = r) by congruence. subst r0.
    assert (Hlt : (this < length h)%nat) by (eapply lookup_lt_Some; eauto).
    assert (Hins : forall x,
               content x = content r -> emitted x = emitted r ->
               observed x = observed r ->
               exists r', <[this := x]> h !! this = Some r' /\
                          content r' = content r /\ emitted r' = emitted r /\
                          observed r' = observed r).
    { intros x H1 H2 H3. exists x. rewrite list_lookup_insert_eq; auto. }
    destruct o; try discriminate Ho; try (rewrite H0; apply Hins);
      try reflexivity;
      try (unfold getAll; destruct (elements r); reflexivity);
      try (unfold getEntries; destruct (entries r); reflexivity);
      try (unfold addValidation;
           destruct (truthy (validationSchema r)); [reflexivity|];
           unfold getEntries; simpl; destruct (entries r); simpl;
           match goal with |- context [validate_entries ?a ?b ?c ?d] =>
             destruct (validate_entries a b c d) end; reflexivity).
    destruct H0 as (c & _ & H0).
    apply category_inv in H0 as (r1 & Hr1 & [[_ ->]|(_ & _ & ->)]).
    + exists r. auto.
    + assert (r1 = r) by congruence. subst r1.
      eexists. split.
      * apply list_lookup_insert_eq. rewrite length_app. simpl. lia.
      * repeat split.
  - exists r. split; [|auto].
    apply step_inv in H as (r0 & Hr0 & H).
    destruct o; try discriminate Ho;
      try (rewrite H; rewrite list_lookup_insert_ne by auto; exact Ha).
    destruct H as (c & _ & H).
    apply category_inv in H as (r1 & _ & [[_ ->]|(_ & _ & ->)]); [exact Ha|].
    rewrite list_lookup_insert_ne by auto.
    rewrite lookup_app_l; [exact Ha|]. eapply lookup_lt_Some; eauto.
Qed.
End HeapFacts.

(** *** Keys *)
Lemma add_keys_unique key value opts r :
  keys_unique r -> keys_unique (snd (add key value opts r)).
Proof.
  intros Hr.
  destruct (truthy_flag (force_of opts)) eqn:Hf;
    [|destruct (map_has key (content r)) eqn:Hk].
  - destruct (add_ok key value opts r (or_introl Hf)) as (s & r' & -> & ->).
    simpl. unfold keys_unique.
    destruct (trigger_frame "UPDATE" (Payload "add" key value)
                (set_content (map_set key (s, value) (content r)) r)) as [Hc _].
    simpl in Hc. rewrite Hc. apply map_set_NoDup, Hr.
  - rewrite (add_throws key value opts r Hf Hk). exact Hr.
  - destruct (add_ok key value opts r (or_intror Hk)) as (s & r' & -> & ->).
    simpl. unfold keys_unique.
    destruct (trigger_frame "UPDATE" (Payload "add" key value)
                (set_content (map_set key (s, value) (content r)) r)) as [Hc _].
    simpl in Hc. rewrite Hc. apply map_set_NoDup, Hr.
Qed.

Lemma remove_keys_unique key r : keys_unique r -> keys_unique (remove key r).
Proof.
  intros Hr. unfold keys_unique, remove.
  match goal with |- context [trigger ?t ?d ?x] =>
    destruct (trigger_frame t d x) as [Hc _] end.
  simpl in Hc. rewrite Hc. apply map_delete_NoDup, Hr.
Qed.

Section TreeFacts.
Variable validate : jsval -> jsval -> option string.

Lemma addValidation_content schema r :
  content (snd (addValidation validate schema r)) = content r.
Proof.
  destruct (truthy (validationSchema r)) eqn:Hs.
  - rewrite (addValidation_set validate schema r Hs). reflexivity.
  - rewrite (addValidation_unset validate schema r Hs). simpl.
    apply (getEntries_content (set_validationSchema schema r)).
Qed.

Lemma step_keys_unique o this (h h' : heap) res :
  Forall keys_unique h ->
  step validate o this h = Some (res, h') ->
  Forall keys_unique h'.
Proof.
  intros Hh H. apply step_inv in H as (r & Hr & H).
  assert (Hu : keys_unique r) by (eapply Forall_lookup_1; eauto).
  destruct o; try (rewrite H; apply Forall_insert; [exact Hh|]).
  - apply add_keys_unique, Hu.
  - exact Hu.
  - exact Hu.
  - apply remove_keys_unique, Hu.
  - unfold keys_unique. rewrite getAll_content. exact Hu.
  - unfold keys_unique. rewrite getEntries_content. exact Hu.
  - destruct H as (c & _ & H).
    apply category_inv in H as (r1 & Hr1 & [[_ ->]|(_ & _ & ->)]); [exact Hh|].
    apply Forall_insert.
    + apply Forall_app. split; [exact Hh|].
      apply Forall_singleton. apply NoDup_nil_2.
    + assert (r1 = r) by congruence. subst r1. exact Hu.
  - unfold keys_unique. rewrite addValidation_content. exact Hu.
  - exact Hu.
Qed.

Lemma run_keys_unique calls : forall (h h' : heap),
  Forall keys_unique h -> run validate calls h = Some h' -> Forall keys_unique h'.
Proof.
  induction calls as [|[this o] calls IH]; simpl; intros h h' Hh H.
  - injection H as <-. exact Hh.
  - destruct (step validate o this h) as [[res h1]|] eqn:E; [|discriminate].
    apply (IH h1); [eapply step_keys_unique; eauto | exact H].
Qed.

(** X13.  In every registry that calls on the root registry and on its
    sub-registries lead to, the keys of the content are distinct, and so are
    the keys of the pairs that [getEntries()] returns. *)
Theorem reachable_keys_unique (calls : list (addr * op)) (n : option string)
    (h : heap) (a : addr) (r : Registry) :
  run validate calls [constructor n] = Some h ->
  h !! a = Some r ->
  NoDup (map fst (content r)) /\ NoDup (map fst (fst (getEntries r))).
Proof.
  intros Hrun Ha.
  assert (Hu : keys_unique r).
  { eapply Forall_lookup_1; [|exact Ha].
    eapply run_keys_unique; [|exact Hrun].
    apply Forall_singleton. apply NoDup_nil_2. }
  assert (Hok : registry_ok r).
  { eapply Forall_lookup_1; [|exact Ha].
    eapply reachable_heap_ok; exact Hrun. }
  split; [exact Hu|].
  rewrite (getEntries_view r (proj1 Hok)), map_fst_pair_of, sort_Permutation.
  exact Hu.
Qed.

(** *** The tree of sub-registries *)
Lemma step_length o this (h h' : heap) res :
  step validate o this h = Some (res, h') -> (length h <= length h')%nat.
Proof.
  intros H. apply step_inv in H as (r & Hr & H).
  destruct o; try (rewrite H, length_insert; lia).
  destruct H as (c & _ & H).
  apply category_inv in H as (r1 & _ & [[_ ->]|(_ & _ & ->)]); [lia|].
  rewrite length_insert, length_app. simpl. lia.
Qed.

Lemma step_subRegistries o this (h h' : heap) res a r' s c :
  step validate o this h = Some (res, h') ->
  h' !! a = Some r' ->
  map_get s (subRegistries r') = Some c ->
  (exists r, h !! a = Some r /\ map_get s (subRegistries r) = Some c) \/
  (a = this /\ c = length h /\ length h' = S (length h)).
Proof.
  intros H Ha Hs. pose proof H as H0. apply step_inv in H0 as (r & Hr & H0).
  assert (Hlt : (this < length h)%nat) by (eapply lookup_lt_Some; eauto).
  assert (Hcall : forall x,
             subRegistries x = subRegistries r -> h' = <[this := x]> h ->
             exists r0, h !! a = Some r0 /\ map_get s (subRegistries r0) = Some c).
  { intros x Hx ->. destruct (decide (a = this)) as [->|Hne].
    - rewrite list_lookup_insert_eq in Ha by exact Hlt. injection Ha as <-.
      exists r. rewrite <- Hx. auto.
    - rewrite list_lookup_insert_ne in Ha by auto. eauto. }
  destruct o; try (left; eapply Hcall; [|exact H0]).
  - unfold add. destruct opts as [[f sq]|];
      match goal with |- context [if ?b then _ else _] => destruct b end;
      simpl; try reflexivity;
      match goal with |- context [trigger ?t ?d ?x] =>
        apply (trigger_frame t d x) end.
  - reflexivity.
  - reflexivity.
  - unfold remove.
    match goal with |- context [trigger ?t ?d ?x] =>
      apply (trigger_frame t d x) end.
  - unfold getAll. destruct (elements r); reflexivity.
  - unfold getEntries. destruct (entries r); reflexivity.
  - destruct H0 as (c0 & _ & H0).
    apply category_inv in H0 as (r1 & Hr1 & [[_ ->]|(Hnone & -> & ->)]); [eauto|].
    assert (r1 = r) by congruence. subst r1.
    destruct (decide (a = this)) as [->|Hne].
    + rewrite list_lookup_insert_eq in Ha by (rewrite length_app; simpl; lia).
      injection Ha as <-. simpl in Hs.
      destruct (decide (subcategory = s)) as [->|Hsub].
      * rewrite map_get_set_eq in Hs. injection Hs as <-.
        right. rewrite length_insert, length_app. simpl. split; [auto|]. lia.
      * rewrite map_get_set_ne in Hs by exact Hsub. left. eauto.
    + rewrite list_lookup_insert_ne in Ha by auto.
      destruct (decide (a < length h)%nat) as [Hin|Hout].
      * rewrite lookup_app_l in Ha by exact Hin. left. eauto.
      * rewrite lookup_app_r in Ha by lia.
        destruct (a - length h)%nat; simpl in Ha; [|discriminate].
        injection Ha as <-. discriminate Hs.
  - destruct (truthy (validationSchema r)) eqn:E.
    + rewrite (addValidation_set validate schema r E). reflexivity.
    + rewrite (addValidation_unset validate schema r E). simpl.
      unfold getEntries. simpl. destruct (entries r); reflexivity.
  - reflexivity.
Qed.

Lemma step_tree_ok o this (h h' : heap) res :
  tree_ok h -> step validate o this h = Some (res, h') -> tree_ok h'.
Proof.
  intros [Hbound Hinj] H.
  pose proof (step_length _ _ _ _ _ H) as Hlen.
  assert (Hthis : (this < length h)%nat).
  { apply step_inv in H as (r & Hr & _). eapply lookup_lt_Some; eauto. }
  split.
  - intros a r' s c Ha Hs.
    destruct (step_subRegistries _ _ _ _ _ _ _ _ _ H Ha Hs)
      as [(r & Hr & Hsr)|(-> & -> & Hl)].
    + pose proof (Hbound a r s c Hr Hsr). lia.
    + lia.
  - intros a1 r1 s1 a2 r2 s2 c Ha1 Hs1 Ha2 Hs2.
    destruct (step_subRegistries _ _ _ _ _ _ _ _ _ H Ha1 Hs1)
      as [(r1' & Hr1 & Hsr1)|(-> & -> & Hl1)];
    destruct (step_subRegistries _ _ _ _ _ _ _ _ _ H Ha2 Hs2)
      as [(r2' & Hr2 & Hsr2)|(E2 & E2' & Hl2)].
    + eapply Hinj; eauto.
    + subst. pose proof (Hbound _ _ _ _ Hr1 Hsr1). lia.
    + pose proof (Hbound _ _ _ _ Hr2 Hsr2). lia.
    + subst a2. split; [reflexivity|].
      (* both are the entry that this call has made *)
      pose proof H as H0. apply step_inv in H0 as (r & Hr & H0).
      destruct o; try (rewrite H0, length_insert in Hl1; lia).
      destruct H0 as (c0 & _ & H0).
      apply category_inv in H0 as (r0 & Hr0 & [[_ ->]|(Hnone & -> & ->)]); [lia|].
      assert (r0 = r) by congruence. subst r0.
      rewrite list_lookup_insert_eq in Ha1 by (rewrite length_app; simpl; lia).
      rewrite list_lookup_insert_eq in Ha2 by (rewrite length_app; simpl; lia).
      injection Ha1 as <-. injection Ha2 as <-. simpl in Hs1, Hs2.
      destruct (decide (subcategory = s1)) as [->|N1].
      * destruct (decide (s1 = s2)) as [->|N2]; [reflexivity|].
        rewrite map_get_set_ne in Hs2 by exact N2.
        pose proof (Hbound _ _ _ _ Hr Hs2). lia.
      * rewrite map_get_set_ne in Hs1 by exact N1.
        pose proof (Hbound _ _ _ _ Hr Hs1). lia.
Qed.

Lemma run_tree_ok calls : forall (h h' : heap),
  tree_ok h -> run validate calls h = Some h' -> tree_ok h'.
Proof.
  induction calls as [|[this o] calls IH]; simpl; intros h h' Hh H.
  - injection H as <-. exact Hh.
  - destruct (step validate o this h) as [[res h1]|] eqn:E; [|discriminate].
    apply (IH h1); [eapply step_tree_ok; eauto | exact H].
Qed.

Lemma tree_ok_root n : tree_ok [constructor n].
Proof.
  split.
  - intros a r s c Ha Hs. destruct a; simpl in Ha; [|discriminate].
    injection Ha as <-. discriminate Hs.
  - intros a1 r1 s1 a2 r2 s2 c Ha1 Hs1. destruct a1; simpl in Ha1; [|discriminate].
    injection Ha1 as <-. discriminate Hs1.
Qed.

Lemma category_registered subcategory this (h h' : heap) c :
  category subcategory this h = Some (c, h') ->
  exists r', h' !! this = Some r' /\ map_get subcategory (subRegistries r') = Some c.
Proof.
  intros H. apply category_inv in H as (r & Hr & [[Hs ->]|(_ & -> & ->)]); [eauto|].
  eexists. split.
  - apply list_lookup_insert_eq. rewrite length_app. simpl.
    apply lookup_lt_Some in Hr. lia.
  - simpl. apply map_get_set_eq.
Qed.

(** X14.  On the heaps that calls on the root registry lead to, the
    sub-registries form a tree: [category] returns different objects for
    different names, each of them created after the registry it is asked of,
    so that it is neither this registry nor the root. *)
Theorem categories_distinct (calls : list (addr * op)) (n : option string)
    (h h1 h2 : heap) (this c1 c2 : addr) (s1 s2 : string) :
  run validate calls [constructor n] = Some h ->
  category s1 this h = Some (c1, h1) ->
  category s2 this h1 = Some (c2, h2) ->
  s1 <> s2 ->
  c1 <> c2 /\ (this < c1)%nat /\ (this < c2)%nat.
Proof.
  intros Hrun H1 H2 Hne.
  assert (T : tree_ok h) by (eapply run_tree_ok; [apply tree_ok_root|exact Hrun]).
  assert (T1 : tree_ok h1).
  { apply (step_tree_ok (OpCategory s1) this h h1 (RRegistry c1) T).
    simpl. rewrite H1. reflexivity. }
  assert (T2 : tree_ok h2).
  { apply (step_tree_ok (OpCategory s2) this h1 h2 (RRegistry c2) T1).
    simpl. rewrite H2. reflexivity. }
  destruct (category_registered _ _ _ _ _ H1) as (r1 & Hr1 & Hs1).
  destruct (category_registered _ _ _ _ _ H2) as (r2 & Hr2 & Hs2).
  destruct (category_extends _ _ _ _ _ H2 this r1 Hr1)
    as (r2' & Hr2' & _ & Hkeep).
  assert (r2' = r2) by congruence. subst r2'.
  apply Hkeep in Hs1. destruct T2 as [Hbound Hinj].
  split; [|split].
  - intros ->. destruct (Hinj _ _ _ _ _ _ _ Hr2 Hs1 Hr2 Hs2) as [_ E]. auto.
  - apply (Hbound _ _ _ _ Hr2 Hs1).
  - apply (Hbound _ _ _ _ Hr2 Hs2).
Qed.

(** X15.  [add] does not look at the schema: a value that [validate] rejects
    against the schema of the registry is added all the same, and [get]
    returns it. *)
Theorem add_not_validated (r : Registry) (key : string) (value : jsval)
    (opts : option options) (e : string) :
  validate value (validationSchema r) = Some e ->
  map_has key (content r) = false ->
  exists r',
    add key value opts r = (Ok tt, r') /\
    validationSchema r' = validationSchema r /\
    forall fallback, get key fallback r' = Ok value.
Proof.
  intros _ Hk.
  destruct (add_ok key value opts r (or_intror Hk)) as (s & r' & H & Heq).
  exists r'. split; [exact H|].
  destruct (add_frame key value opts r r' H) as (s0 & _ & _ & _ & Hv & _).
  split; [exact Hv|]. intros fallback.
  destruct (proj1 (add_get _ _ _ _ _ H)) as [s' Hs'].
  apply (get_present _ _ _ s'). exact Hs'.
Qed.
End TreeFacts.

End Engine.

(** ** Instances

    The properties at concrete registries, with an engine that sorts by
    insertion whatever the sequences are. *)

(** C3 (what the code does where the claim fails).  After [add("a", 1)],
    [add("b", 2, {})] and [add("c", 3, {sequence: 0})] on a new registry the
    stored sequences are 50, [undefined] and 0, the caches are up to date,
    and [getAll()] and [getEntries()] return the entries in the order of
    insertion: the entry of sequence 50 comes before the one of sequence 0. *)
Theorem getAll_not_sorted_after_add :
  exists r1 r2 r3,
    add stable_sort "a" (VNum 1) None registry = (Ok tt, r1) /\
    add stable_sort "b" (VNum 2) (Some (Options None None)) r1 = (Ok tt, r2) /\
    add stable_sort "c" (VNum 3) (Some (Options None (Some 0))) r2 = (Ok tt, r3) /\
    content r3 =
      [("a", (Some 50, VNum 1)); ("b", (None, VNum 2)); ("c", (Some 0, VNum 3))] /\
    cache_ok stable_sort r3 /\
    fst (getAll stable_sort r3) = [VNum 1; VNum 2; VNum 3] /\
    fst (getEntries stable_sort r3) = [("a", VNum 1); ("b", VNum 2); ("c", VNum 3)].
Proof.
  do 3 eexists. do 4 (split; [reflexivity|]). split; [|split; reflexivity].
  split; simpl; intros l H; discriminate H.
Qed.

Lemma remove_spec_witness :
  map_get "b" (content (remove stable_sort "a"
                          (snd (add stable_sort "b" (VNum 1) None registry)))) =
  map_get "b" (content (snd (add stable_sort "b" (VNum 1) None registry))) /\
  content (remove stable_sort "a" registry) = content registry.
Proof.
  split.
  - apply (remove_spec stable_sort
             (snd (add stable_sort "b" (VNum 1) None registry)) "a").
    discriminate.
  - apply (remove_spec stable_sort registry "a"). reflexivity.
Defined.

(** C4 (where the claim fails).  Removing an absent key emits an UPDATE
    event, and the event of removing a present key does not carry the
    removed value itself. *)
Lemma remove_absent_emits_UPDATE :
  emitted (remove stable_sort "a" registry) <> emitted registry /\
  (forall ev,
     last (emitted (remove stable_sort "a"
                      (snd (add stable_sort "a" (VStr "A") None registry))))
     = Some ev ->
     ev_value (snd ev) <> VStr "A").
Proof.
  split.
  - simpl. discriminate.
  - simpl. intros ev [= <-]. simpl. discriminate.
Qed.

Lemma get_fallback_witness :
  get "a" (VNum 0) registry = Ok (VNum 0) /\
  get "a" VNull registry = Ok VNull /\
  exists e, get "a" VUndefined registry = Throw e.
Proof.
  split; [|split].
  - apply (get_fallback registry "a" (VNum 0)); [reflexivity|discriminate].
  - apply (get_fallback registry "a" VNull). reflexivity.
  - apply (proj2 (proj1 (get_fallback registry "a" VUndefined))).
    split; reflexivity.
Defined.

Lemma add_duplicate_witness :
  add stable_sort "a" (VNum 2) (Some (Options None (Some 7)))
    (snd (add stable_sort "a" (VNum 1) None registry)) =
  (Throw (DuplicatedKeyError
     ("Cannot add '" +:+ "a" +:+ "' in this registry: it already exists")),
   snd (add stable_sort "a" (VNum 1) None registry)).
Proof.
  apply (add_duplicate stable_sort
           (snd (add stable_sort "a" (VNum 1) None registry)) "a" (VNum 2)
           (Some (Options None (Some 7)))); reflexivity.
Defined.

Lemma add_then_get_witness :
  (exists r',
     add_all stable_sort
       [AddCall "a" (VNum 1) None;
        AddCall "b" (VNum 2) (Some (Options (Some true) (Some 3)))]
       registry = (Ok tt, r')) /\
  get "b" VUndefined
    (snd (add_all stable_sort
            [AddCall "a" (VNum 1) None;
             AddCall "b" (VNum 2) (Some (Options (Some true) (Some 3)))]
            registry)) = Ok (VNum 2).
Proof.
  assert (Hnd : NoDup (map call_key
                 [AddCall "a" (VNum 1) None;
                  AddCall "b" (VNum 2) (Some (Options (Some true) (Some 3)))])).
  { simpl. apply NoDup_cons. split; [|apply NoDup_singleton].
    intros H. apply list_elem_of_singleton in H. discriminate H. }
  split.
  - apply (add_then_get stable_sort _ registry Hnd). repeat constructor.
  - apply (proj2 (add_then_get stable_sort _ registry Hnd) _ eq_refl
             (AddCall "b" (VNum 2) (Some (Options (Some true) (Some 3))))).
    apply elem_of_cons. right. apply elem_of_cons. left. reflexivity.
Defined.

Lemma addValidation_once_witness :
  addValidation stable_sort (fun _ _ => None) (VObj 1)
    (snd (addValidation stable_sort (fun _ _ => None) (VObj 0) registry)) =
  (Throw already_set,
   snd (addValidation stable_sort (fun _ _ => None) (VObj 0) registry)).
Proof.
  destruct (addValidation_once stable_sort stable_sort_Permutation
              (fun _ _ => None) registry (VObj 0))
    as (x & r1 & H1 & _ & _ & _ & _ & H).
  - split; simpl; intros l Hl; discriminate Hl.
  - reflexivity.
  - injection H1 as <- <-. apply H. reflexivity.
Defined.


Lemma category_child_witness :
  exists c h',
    category "main_components" 0 [registry] = Some (c, h') /\
    h' !! c = Some (constructor None).
Proof.
  destruct (category_child stable_sort (fun _ _ => None) [registry] 0 registry
              "main_components")
    as (c & h' & H1 & _ & H2 & _).
  - reflexivity.
  - reflexivity.
  - exists c, h'. split; assumption.
Defined.

Lemma contains_get_witness :
  get "a" (VNum 7) (snd (add stable_sort "a" (VNum 1) None registry)) =
  get "a" VUndefined (snd (add stable_sort "a" (VNum 1) None registry)).
Proof.
  apply (contains_get (snd (add stable_sort "a" (VNum 1) None registry)) "a").
  reflexivity.
Defined.

Lemma add_emits_witness :
  emitted (snd (add stable_sort "a" (VNum 1) None registry)) =
  (emitted registry ++ [("UPDATE", Payload "add" "a" (VNum 1))])%list.
Proof.
  apply (add_emits stable_sort registry
           (snd (add stable_sort "a" (VNum 1) None registry)) "a" (VNum 1) None).
  reflexivity.
Defined.

Lemma add_default_witness :
  exists r',
    add stable_sort "b" (VNum 2) None
      (snd (add stable_sort "a" (VNum 1) None registry)) = (Ok tt, r') /\
    content r' =
    (content (snd (add stable_sort "a" (VNum 1) None registry)) ++
     [("b", (Some 50, VNum 2))])%list.
Proof.
  apply (add_default stable_sort
           (snd (add stable_sort "a" (VNum 1) None registry)) "b" (VNum 2)).
  reflexivity.
Defined.

Lemma add_force_in_place_witness :
  exists r',
    add stable_sort "a" (VNum 3) (Some (Options (Some true) (Some 4)))
      (snd (add stable_sort "b" (VNum 2) None
              (snd (add stable_sort "a" (VNum 1) None registry))))
    = (Ok tt, r') /\
    map fst (content r') = ["a"; "b"] /\
    forall fallback, get "a" fallback r' = Ok (VNum 3).
Proof.
  apply (add_force_in_place stable_sort
           (snd (add stable_sort "b" (VNum 2) None
                   (snd (add stable_sort "a" (VNum 1) None registry))))
           "a" (VNum 3) (Some 4)).
  reflexivity.
Defined.

Lemma remove_then_get_witness :
  get "a" VNull (remove stable_sort "a"
                   (snd (add stable_sort "a" (VNum 1) None registry))) = Ok VNull /\
  get "b" VNull (remove stable_sort "a"
                   (snd (add stable_sort "a" (VNum 1) None registry))) =
  get "b" VNull (snd (add stable_sort "a" (VNum 1) None registry)).
Proof.
  split.
  - apply (remove_then_get stable_sort
             (snd (add stable_sort "a" (VNum 1) None registry)) "a").
    discriminate.
  - apply (remove_then_get stable_sort
             (snd (add stable_sort "a" (VNum 1) None registry)) "a").
    discriminate.
Defined.

Lemma add_remove_roundtrip_witness :
  content (remove stable_sort "b"
             (snd (add stable_sort "b" (VNum 2) None
                     (snd (add stable_sort "a" (VNum 1) None registry))))) =
  content (snd (add stable_sort "a" (VNum 1) None registry)).
Proof.
  apply (add_remove_roundtrip stable_sort
           (snd (add stable_sort "a" (VNum 1) None registry))
           (snd (add stable_sort "b" (VNum 2) None
                   (snd (add stable_sort "a" (VNum 1) None registry))))
           "b" (VNum 2) None); reflexivity.
Defined.

Lemma views_agree_witness :
  fst (getAll stable_sort
         (snd (add stable_sort "b" (VNum 2) None
                 (snd (add stable_sort "a" (VNum 1) None registry)))))
  = map snd (fst (getEntries stable_sort
       (snd (add stable_sort "b" (VNum 2) None
               (snd (add stable_sort "a" (VNum 1) None registry)))))).
Proof.
  apply (views_agree stable_sort stable_sort_Permutation
           (snd (add stable_sort "b" (VNum 2) None
                   (snd (add stable_sort "a" (VNum 1) None registry))))).
  split; simpl; intros l H; discriminate H.
Defined.

Lemma getEntries_get_witness :
  ("a", VNum 1) ∈
  fst (getEntries stable_sort (snd (add stable_sort "a" (VNum 1) None registry))).
Proof.
  apply (getEntries_get stable_sort stable_sort_Permutation
           (snd (add stable_sort "a" (VNum 1) None registry)) "a" (VNum 1)).
  - split; simpl; intros l H; discriminate H.
  - apply NoDup_singleton.
  - reflexivity.
Defined.

Lemma equal_sequences_keep_order_witness :
  sublist
    (map pair_of
       (filter (fun el => sequence_of el = Some 50)
          (content (snd (add stable_sort "a" (VNum 2) None
                           (snd (add stable_sort "b" (VNum 1) None registry)))))))
    (fst (getEntries stable_sort
            (snd (add stable_sort "a" (VNum 2) None
                    (snd (add stable_sort "b" (VNum 1) None registry)))))) /\
  fst (getEntries stable_sort
         (snd (add stable_sort "a" (VNum 2) None
                 (snd (add stable_sort "b" (VNum 1) None registry)))))
  = map pair_of
      (content (snd (add stable_sort "a" (VNum 2) None
                       (snd (add stable_sort "b" (VNum 1) None registry))))).
Proof.
  split.
  - apply (equal_sequences_keep_order stable_sort
             (snd (add stable_sort "a" (VNum 2) None
                     (snd (add stable_sort "b" (VNum 1) None registry)))) 50).
    + split; simpl; intros l H; discriminate H.
    + repeat constructor; eexists; reflexivity.
  - apply (equal_sequences_keep_order stable_sort
             (snd (add stable_sort "a" (VNum 2) None
                     (snd (add stable_sort "b" (VNum 1) None registry)))) 50).
    + split; simpl; intros l H; discriminate H.
    + repeat constructor.
Defined.

Lemma reads_change_nothing_witness :
  exists r',
    [snd (getAll stable_sort registry)] !! 0%nat = Some r' /\
    content r' = content registry /\
    emitted r' = emitted registry /\ observed r' = observed registry.
Proof.
  apply (reads_change_nothing stable_sort (fun _ _ => None) OpGetAll 0 0 [registry]
           [snd (getAll stable_sort registry)] (RValues []) registry); reflexivity.
Defined.

Lemma reachable_keys_unique_witness :
  NoDup (map fst (fst (getEntries stable_sort
    (snd (add stable_sort "b" (VNum 2) None
            (snd (add stable_sort "a" (VNum 1) None registry))))))).
Proof.
  apply (reachable_keys_unique stable_sort stable_sort_Permutation (fun _ _ => None)
           [(0%nat, OpAdd "a" (VNum 1) None); (0%nat, OpAdd "b" (VNum 2) None)]
           None
           [snd (add stable_sort "b" (VNum 2) None
                   (snd (add stable_sort "a" (VNum 1) None registry)))]
           0
           (snd (add stable_sort "b" (VNum 2) None
                   (snd (add stable_sort "a" (VNum 1) None registry)))));
    reflexivity.
Defined.

Lemma categories_distinct_witness :
  exists c1 h1 c2 h2,
    category "views" 0 [registry] = Some (c1, h1) /\
    category "actions" 0 h1 = Some (c2, h2) /\
    c1 <> c2.
Proof.
  do 4 eexists. split; [reflexivity|]. split; [reflexivity|].
  apply (categories_distinct stable_sort (fun _ _ => None) [] None [registry]
           (snd (default (0%nat, []) (category "views" 0 [registry])))
           (snd (default (0%nat, [])
                   (category "actions" 0
                      (snd (default (0%nat, []) (category "views" 0 [registry]))))))
           0 1 2 "views" "actions").
  - reflexivity.
  - reflexivity.
  - reflexivity.
  - discriminate.
Defined.

Lemma add_not_validated_witness :
  exists r',
    add stable_sort "form" (VObj 7) None
      (snd (addValidation stable_sort (fun _ _ => Some "Invalid object") (VObj 8)
              registry))
    = (Ok tt, r') /\
    validationSchema r' = VObj 8 /\
    forall fallback, get "form" fallback r' = Ok (VObj 7).
Proof.
  apply (add_not_validated stable_sort (fun _ _ => Some "Invalid object")
           (snd (addValidation stable_sort (fun _ _ => Some "Invalid object")
                   (VObj 8) registry))
           "form" (VObj 7) None "Invalid object"); reflexivity.
Defined.

End Registry.

(** ** Properties of the container *)
Module MainComponentsContainerFacts.
Import MainComponentsContainer.

Lemma indexOf_absent (x : item) (l : list item) : x ∉ l -> indexOf x l = -1.
Proof.
  induction l as [|y l IH]; simpl; [reflexivity|].
  intros H. apply not_elem_of_cons in H as [Hne H].
  rewrite decide_False by auto. rewrite (IH H). reflexivity.
Qed.

Lemma indexOf_first (x : item) (l1 l2 : list item) :
  x ∉ l1 -> indexOf x (l1 ++ x :: l2) = Z.of_nat (length l1).
Proof.
  induction l1 as [|y l1 IH]; simpl; intros H.
  - rewrite decide_True; reflexivity.
  - apply not_elem_of_cons in H as [Hne H].
    rewrite decide_False by auto. rewrite (IH H).
    destruct (Z.ltb_spec (Z.of_nat (length l1)) 0); lia.
Qed.

Lemma splice_at (x : item) (l1 l2 : list item) :
  splice (Z.of_nat (length l1)) 1 (l1 ++ x :: l2) = (l1 ++ l2)%list.
Proof.
  unfold splice. rewrite length_app. simpl.
  destruct (Z.ltb_spec (Z.of_nat (length l1)) 0) as [Hlt|_]; [lia|].
  replace (Z.min (Z.of_nat (length l1)) (Z.of_nat (length l1 + S (length l2))))
    with (Z.of_nat (length l1)) by lia.
  replace (Z.min (Z.max 1 0)
             (Z.of_nat (length l1 + S (length l2)) - Z.of_nat (length l1)))
    with 1 by lia.
  replace (Z.to_nat (Z.of_nat (length l1) + 1)) with (S (length l1)) by lia.
  rewrite Nat2Z.id, take_app_length.
  change (l1 ++ x :: l2)%list with (l1 ++ [x] ++ l2)%list.
  rewrite app_assoc, drop_app_length'; [reflexivity|].
  rewrite length_app. simpl. lia.
Qed.

Lemma splice_last (l : list item) :
  splice (-1) 1 l = take (length l - 1) l.
Proof.
  unfold splice.
  destruct l as [|y l]; [reflexivity|].
  remember (y :: l) as k eqn:Hk.
  assert (Hlen : (0 < length k)%nat) by (subst k; simpl; lia).
  change (Z.ltb (-1) 0) with true. cbv iota.
  replace (Z.max (Z.of_nat (length k) + -1) 0) with (Z.of_nat (length k - 1)) by lia.
  replace (Z.min (Z.max 1 0) (Z.of_nat (length k) - Z.of_nat (length k - 1)))
    with 1 by lia.
  replace (Z.to_nat (Z.of_nat (length k - 1) + 1)) with (length k) by lia.
  rewrite Nat2Z.id, drop_all, app_nil_r. reflexivity.
Qed.

(** X16.  [handleComponentError(error, C)] takes [C] out of [Components],
    where it first occurs, and keeps the other items in their order.  If [C]
    is not among them (an item of a list that an UPDATE has replaced since),
    it is the last item that is taken out.  In both cases one rendering is
    asked for and the error is queued once to be thrown again. *)
Theorem handleComponentError_removes (error : jsval) (C : item)
    (this : MainComponentsContainer) :
  (forall before after,
     Components this = (before ++ C :: after)%list -> C ∉ before ->
     Components (handleComponentError error C this) = (before ++ after)%list) /\
  (C ∉ Components this ->
   Components (handleComponentError error C this) =
   take (length (Components this) - 1) (Components this)) /\
  renders (handleComponentError error C this) = S (renders this) /\
  rethrown (handleComponentError error C this) = (rethrown this ++ [error])%list.
Proof.
  split; [|split; [|split; reflexivity]].
  - intros l1 l2 Heq Hl1. simpl.
    rewrite Heq, (indexOf_first C l1 l2 Hl1). apply splice_at.
  - intros Habs. simpl. rewrite (indexOf_absent C _ Habs). apply splice_last.
Qed.

Lemma handleComponentError_removes_witness :
  Components (handleComponentError (VStr "boom") 11%nat
                (MkContainer [10; 11; 12]%nat 0 []))
  = [10; 12]%nat /\
  Components (handleComponentError (VStr "boom") 99%nat
                (MkContainer [10; 11; 12]%nat 0 []))
  = [10; 11]%nat.
Proof.
  split.
  - apply (proj1 (handleComponentError_removes (VStr "boom") 11%nat
                    (MkContainer [10; 11; 12]%nat 0 [])) [10%nat] [12%nat]).
    + reflexivity.
    + intros H. apply list_elem_of_singleton in H. discriminate H.
  - apply (handleComponentError_removes (VStr "boom") 99%nat
             (MkContainer [10; 11; 12]%nat 0 [])).
    simpl. intros H.
    repeat (apply elem_of_cons in H as [H|H]; [discriminate H|]).
    inversion H.
Defined.

End MainComponentsContainerFacts.
